(** * A shallow embedding of [agent/my_agent.py]

    The agent answers a batch of questions by asking a chat-completion
    service, extracting what follows the marker [FINAL ANSWER:], retrying
    with a growing pause, and collecting one answer per question in input
    order while autosaving a snapshot after every completion.

    Layout: Python strings and their methods, JSON values as the service
    returns them, the solver client, the retry wrapper, the batch scheduler
    as a labelled transition system, then the theorems. *)

From Stdlib Require Import ZArith NArith List Ascii String Lia Bool.
From stdpp Require Import base option list gmap.
Import ListNotations.

Set Warnings "-register-all".

Local Open Scope nat_scope.

(** ** Python strings *)

(** A Python [str] is a sequence of Unicode code points. *)
Module PyStr.

Abbreviation char := N.
Abbreviation str := (list N).

(** A Rocq literal read as a [str], one code point per character. *)
Definition lit (s : string) : str :=
  map N_of_ascii (list_ascii_of_string s).

(** [c.isspace()] for one code point: the table behind CPython's
    [_PyUnicode_IsWhitespace]. *)
Definition isspace (c : char) : bool :=
  ((9 <=? c) && (c <=? 13) || (28 <=? c) && (c <=? 32)
   || (c =? 133) || (c =? 160) || (c =? 5760)
   || (8192 <=? c) && (c <=? 8202)
   || (c =? 8232) || (c =? 8233) || (c =? 8239) || (c =? 8287)
   || (c =? 12288))%N.

Fixpoint drop_while (p : char -> bool) (s : str) : str :=
  match s with
  | [] => []
  | c :: s' => if p c then drop_while p s' else s
  end.

(** [s.lstrip(chars)] and [s.rstrip(chars)], the character set given as a
    predicate. *)
Definition lstrip_by (p : char -> bool) (s : str) : str := drop_while p s.
Definition rstrip_by (p : char -> bool) (s : str) : str :=
  rev (drop_while p (rev s)).

(** [s.strip()] *)
Definition strip (s : str) : str := lstrip_by isspace (rstrip_by isspace s).

Definition in_chars (chars : str) (c : char) : bool :=
  existsb (N.eqb c) chars.

(** [s.rstrip(chars)], [s.lstrip(chars)] *)
Definition rstrip (chars s : str) : str := rstrip_by (in_chars chars) s.
Definition lstrip (chars s : str) : str := lstrip_by (in_chars chars) s.

(** [s.startswith(p)] *)
Fixpoint startswith (p s : str) : bool :=
  match p, s with
  | [], _ => true
  | _ :: _, [] => false
  | a :: p', b :: s' => (a =? b)%N && startswith p' s'
  end.

(** [sub in s] *)
Fixpoint contains (sub s : str) : bool :=
  startswith sub s ||
  match s with
  | [] => false
  | _ :: s' => contains sub s'
  end.

(** [s.split(sep)] for a non-empty [sep]: scan from the left; at an
    occurrence of [sep] close the current piece and jump over the
    occurrence.  [skip] counts the characters of the occurrence still to
    jump over, [acc] is the current piece, reversed. *)
Fixpoint split_go (sep : str) (skip : nat) (acc : str) (s : str) : list str :=
  match s with
  | [] => [rev acc]
  | c :: s' =>
      match skip with
      | S k => split_go sep k acc s'
      | O =>
          if startswith sep s
          then rev acc :: split_go sep (length sep - 1) [] s'
          else split_go sep 0 (c :: acc) s'
      end
  end.

Definition split (sep s : str) : list str := split_go sep 0 [] s.

(** [s.replace(old, "")] for a one-character [old] *)
Definition remove_char (old : char) (s : str) : str :=
  filter (fun c => c ≠ old) s.

End PyStr.

Import PyStr.

Definition MARKER : str := lit "FINAL ANSWER:".

(** ** Values and exceptions *)

(** The exceptions the program can meet.  Every handler in the source is
    [except Exception], so the constructor only serves the log. *)
Inductive exn : Type :=
| Timeout | ConnectionError | JSONDecodeError
| TypeError | AttributeError | IndexError | KeyError.

(** The outcome of a Python call: a value or a raised exception. *)
Inductive res (A : Type) : Type :=
| Ok (a : A)
| Raise (e : exn).
Arguments Ok {A} a.
Arguments Raise {A} e.

#[export] Instance res_ret : MRet res := fun A a => Ok a.
#[export] Instance res_bind : MBind res := fun A B f m =>
  match m with
  | Ok a => f a
  | Raise e => Raise e
  end.

(** What [json.loads] builds: [None], [bool], a number, [str], [list],
    [dict].  A number is kept by an integer: a float takes the same
    branches as an integer that is zero or not. *)
Inductive json : Type :=
| JNull
| JBool (b : bool)
| JNum (z : Z)
| JStr (s : str)
| JArr (items : list json)
| JObj (fields : list (str * json)).

(** [bool(v)] *)
Definition truthy (v : json) : bool :=
  match v with
  | JNull => false
  | JBool b => b
  | JNum z => negb (z =? 0)%Z
  | JStr s => negb (bool_decide (s = []))
  | JArr items => match items with [] => false | _ => true end
  | JObj fields => match fields with [] => false | _ => true end
  end.

(** [a or b] *)
Definition py_or (a b : json) : json := if truthy a then a else b.

Fixpoint assoc (k : str) (fields : list (str * json)) : option json :=
  match fields with
  | [] => None
  | (k', v) :: rest => if bool_decide (k = k') then Some v else assoc k rest
  end.

(** [d.get(k, dflt)]; only a [dict] has the method. *)
Definition py_get (d : json) (k : str) (dflt : json) : res json :=
  match d with
  | JObj fields => Ok (default dflt (assoc k fields))
  | _ => Raise AttributeError
  end.

(** [v[0]] *)
Definition py_index0 (v : json) : res json :=
  match v with
  | JArr (x :: _) => Ok x
  | JArr [] => Raise IndexError
  | JStr (c :: _) => Ok (JStr [c])
  | JStr [] => Raise IndexError
  | JObj _ => Raise KeyError
  | JNull | JBool _ | JNum _ => Raise TypeError
  end.

Definition is_str (s : str) (v : json) : bool :=
  match v with
  | JStr s' => bool_decide (s = s')
  | _ => false
  end.

(** [sub in v] for a string [sub] *)
Definition py_in (sub : str) (v : json) : res bool :=
  match v with
  | JStr s => Ok (contains sub s)
  | JArr items => Ok (existsb (is_str sub) items)
  | JObj fields => Ok (bool_decide (is_Some (assoc sub fields)))
  | JNull | JBool _ | JNum _ => Raise TypeError
  end.

(** [v.split(sep)]; only a [str] has the method. *)
Definition py_split (v : json) (sep : str) : res (list str) :=
  match v with
  | JStr s => Ok (split sep s)
  | _ => Raise AttributeError
  end.

(** ** Configuration *)

Definition API_KEY : str := lit "cse476".
Definition API_BASE : str := lit "http://10.4.58.53:41701/v1".
Definition MODEL : str := lit "bens_model".
Definition SYSTEM_PROMPT : str :=
  lit "You are a careful problem solver. Think briefly step by step, "
  ++ lit "then give the final answer ONLY as: FINAL ANSWER: <value>".

(** ** The solver client *)

Record message := { role : str; content : str }.

(** What [requests.post] is given.  The sampling temperature is a float
    constant and is left out. *)
Record request := {
  url : str;
  authorization : str;
  req_model : str;
  messages : list message;
  max_tokens : Z;
  timeout : Z
}.

(** What [requests.post] gives back: the status, and what [resp.json()]
    does when called. *)
Record response := { status_code : Z; resp_json : res json }.

(** What one task does to the outside world. *)
Inductive event : Type :=
| EvPost (r : request)
| EvSleep (secs : Z).

(** The state a task threads through its calls: how many requests it has
    sent, and its events so far. *)
Record tstate := { calls : nat; log : list event }.

Definition tstate0 : tstate := {| calls := 0; log := [] |}.

(** The service as one task sees it: the outcome of its [k]-th request. *)
Definition service : Type := nat -> request -> res response.

(** Computations of a task: state passing with exceptions. *)
Definition task (A : Type) : Type := tstate -> res A * tstate.

#[export] Instance task_ret : MRet task := fun A a st => (Ok a, st).
#[export] Instance task_bind : MBind task := fun A B f m st =>
  match m st with
  | (Ok a, st') => f a st'
  | (Raise e, st') => (Raise e, st')
  end.

(** A pure outcome inside a task. *)
Definition lift {A} (r : res A) : task A := fun st => (r, st).

(** [try: body except Exception: handler] *)
Definition try_except {A} (body handler : task A) : task A := fun st =>
  match body st with
  | (Ok a, st') => (Ok a, st')
  | (Raise _, st') => handler st'
  end.

Section Solver.

Variable post : service.

Definition requests_post (r : request) : task response := fun st =>
  (post (calls st) r,
   {| calls := S (calls st); log := log st ++ [EvPost r] |}).

Definition time_sleep (secs : Z) : task unit := fun st =>
  (Ok (), {| calls := calls st; log := log st ++ [EvSleep secs] |}).

(** The dict [{"ok": ..., "text": ...}]. *)
Record completion := { ok : bool; text : json }.

Definition chat_request (msgs : list message) : request :=
  {| url := API_BASE ++ lit "/chat/completions";
     authorization := lit "Bearer " ++ API_KEY;
     req_model := MODEL;
     messages := msgs;
     max_tokens := 256;
     timeout := 60 |}.

(** [data.get("choices", [{}])[0].get("message", {}).get("content", "")] *)
Definition choice_content (data : json) : res json :=
  choices ← py_get data (lit "choices") (JArr [JObj []]);
  first ← py_index0 choices;
  msg ← py_get first (lit "message") (JObj []);
  py_get msg (lit "content") (JStr []).

Definition call_model_chat_completions (msgs : list message) : task completion :=
  try_except
    (resp ← requests_post (chat_request msgs);
     if (status_code resp =? 200)%Z then
       data ← lift (resp_json resp);
       text ← lift (choice_content data);
       mret {| ok := true; text := text |}
     else mret {| ok := false; text := JNull |})
    (mret {| ok := false; text := JNull |}).

Definition solver_messages (question_text : str) : list message :=
  [ {| role := lit "system"; content := SYSTEM_PROMPT |};
    {| role := lit "user";
       content := lit "Solve the question below." ++ [10; 10]%N
                  ++ question_text ++ [10; 10]%N
                  ++ lit "End with 'FINAL ANSWER: <value>'." |} ].

Definition ask_solver (question_text : str) : task json :=
  resp ← call_model_chat_completions (solver_messages question_text);
  mret (py_or (text resp) (JStr [])).

(** [extract_answer] touches nothing outside; it can still raise when the
    service put something other than a string in the content field. *)
Definition extract_answer (raw_text : json) : res (option str) :=
  if negb (truthy raw_text) then Ok None
  else
    found ← py_in MARKER raw_text;
    if negb found then Ok None
    else
      parts ← py_split raw_text MARKER;
      let ans := strip (default [] (last parts)) in
      let ans := remove_char 32%N (lstrip (lit "+") (rstrip (lit ".") ans)) in
      Ok (if bool_decide (ans = []) then None else Some ans).

(** [bool(answer)] for an [Optional[str]]: [None] and the empty string
    are false. *)
Definition opt_truthy (answer : option str) : bool :=
  match answer with
  | Some (_ :: _) => true
  | _ => false
  end.

(** [range(n)] *)
Definition py_range (n : Z) : list Z :=
  map Z.of_nat (seq 0 (Z.to_nat n)).

(** The body of [for attempt in range(max_retries)], over the attempts
    still to make. *)
Fixpoint run_agent_loop (question_text : str) (max_retries : Z)
    (attempts : list Z) : task str :=
  match attempts with
  | [] => mret []
  | attempt :: rest =>
      raw ← ask_solver question_text;
      answer ← lift (extract_answer raw);
      if opt_truthy answer then mret (strip (default [] answer))
      else
        (if (attempt <? max_retries - 1)%Z
         then time_sleep (1 * (attempt + 1))
         else mret ());;
        run_agent_loop question_text max_retries rest
  end.

Definition run_agent (question_text : str) (max_retries : Z) : task str :=
  run_agent_loop question_text max_retries (py_range max_retries).

End Solver.

Definition DEFAULT_MAX_RETRIES : Z := 3.

(** ** The batch scheduler *)

(** The dict [{"output": s}]. *)
Record answer := { output : str }.

#[export] Instance answer_eq_dec : EqDecision answer.
Proof. solve_decision. Defined.

(** A question is a dict from field names to text. *)
Abbreviation question := (gmap str str).

Definition BATCH_SIZE : nat := 10.

(** The life of one future of the pool. *)
Inductive fstate : Type :=
| Queued (text : str)
| Running (text : str)
| Finished (r : res str)
| Collected.

(** What can be observed of a run, in the order it happens. *)
Inductive mevent : Type :=
| MSubmit (idx : nat) (text : str)
| MStart (idx : nat)
| MFinish (idx : nat)
| MLogException (idx : nat) (exc : exn)
| MWrite (idx : nat) (a : answer)
| MAcquire
| MTruncate
| MDump (doc : list answer)
| MRelease
| MProgress (completed remaining : nat)
| MShutdown.

(** Where the calling thread stands in [generate_all_answers]. *)
Inductive pc : Type :=
| LoopHead
| InPool
| Returned (final_answers : list answer).

Record sched := {
  at_pc : pc;
  batch_start : nat;
  answers : list (option answer);
  file : list (list answer);
  future_to_idx : gmap nat fstate;
  trace : list mevent
}.

(** What the threads do, one step at a time: the calling thread submits
    a batch, collects a finished future, leaves the pool or returns; a
    worker starts or finishes a task. *)
Inductive action : Type :=
| ASubmit
| AStart (idx : nat)
| AFinish (idx : nat)
| ACollect (idx : nat)
| AShutdown
| AReturn.

Definition emit (evs : list mevent) (s : sched) : sched :=
  {| at_pc := at_pc s; batch_start := batch_start s; answers := answers s;
     file := file s; future_to_idx := future_to_idx s;
     trace := trace s ++ evs |}.

Definition set_pc (p : pc) (s : sched) : sched :=
  {| at_pc := p; batch_start := batch_start s; answers := answers s;
     file := file s; future_to_idx := future_to_idx s; trace := trace s |}.

Definition set_future (idx : nat) (f : fstate) (s : sched) : sched :=
  {| at_pc := at_pc s; batch_start := batch_start s; answers := answers s;
     file := file s; future_to_idx := <[idx := f]> (future_to_idx s);
     trace := trace s |}.

(** [answers[idx] = a] *)
Definition set_answer (idx : nat) (a : answer) (s : sched) : sched :=
  emit [MWrite idx a]
    {| at_pc := at_pc s; batch_start := batch_start s;
       answers := <[idx := Some a]> (answers s);
       file := file s; future_to_idx := future_to_idx s; trace := trace s |}.

(** [PARTIAL_PATH.open("w")] empties the file; [json.dump] adds one
    document to it. *)
Definition open_w (s : sched) : sched :=
  emit [MTruncate]
    {| at_pc := at_pc s; batch_start := batch_start s; answers := answers s;
       file := []; future_to_idx := future_to_idx s; trace := trace s |}.

Definition json_dump (doc : list answer) (s : sched) : sched :=
  emit [MDump doc]
    {| at_pc := at_pc s; batch_start := batch_start s; answers := answers s;
       file := file s ++ [doc]; future_to_idx := future_to_idx s;
       trace := trace s |}.

(** [[a if a is not None else {"output": ""} for a in answers]] *)
Definition render (slots : list (option answer)) : list answer :=
  (fun a => match a with Some r => r | None => {| output := [] |} end) <$> slots.

(** The autosave: everything inside [with save_lock].  Opening and
    writing the file are taken to succeed. *)
Definition save_answers (s : sched) : sched :=
  let s := emit [MAcquire] s in
  let completed_answers := render (answers s) in
  let s := open_w s in
  let s := json_dump completed_answers s in
  emit [MRelease] s.

Definition is_filled (a : option answer) : bool :=
  match a with Some _ => true | None => false end.

(** [sum(1 for a in answers if a is not None)] *)
Definition filled (slots : list (option answer)) : nat :=
  length (filter (fun a => is_filled a = true) slots).

Definition is_running (f : fstate) : bool :=
  match f with Running _ => true | _ => false end.

Definition running (fs : gmap nat fstate) : nat :=
  size (filter (fun p => is_running p.2 = true) fs).

Definition is_collected (f : fstate) : bool :=
  match f with Collected => true | _ => false end.

Definition all_collected (fs : gmap nat fstate) : bool :=
  bool_decide (map_Forall (fun _ f => is_collected f = true) fs).

(** [q.get("input", "")] *)
Definition get_input (q : question) : str := default [] (q !! lit "input").

Section Scheduler.

Variable world : nat -> service.
Variable questions : list question.

Definition total : nat := length questions.

(** [completed, remaining] of [get_progress_info]; the percentage is a
    float for the log line only. *)
Definition get_progress_info (s : sched) : nat * nat :=
  let completed := filled (answers s) in
  (completed, total - completed).

(** What the future of question [idx] holds once its task is over. *)
Definition run_task (idx : nat) (text : str) : res str :=
  (run_agent (world idx) text DEFAULT_MAX_RETRIES tstate0).1.

(** The body of [for future in as_completed(future_to_idx)], for a future
    whose task returned or raised.  It runs in the calling thread; the
    workers touch neither [answers] nor the lock, so it is one step. *)
Definition on_completed (idx : nat) (r : res str) (s : sched) : sched :=
  match r with
  | Ok v =>
      let s := set_answer idx {| output := strip v |} s in
      let s := save_answers s in
      let '(completed, remaining) := get_progress_info s in
      emit [MProgress completed remaining] s
  | Raise exc =>
      let s := emit [MLogException idx exc] s in
      let s := set_answer idx {| output := [] |} s in
      let s := save_answers s in
      let '(completed, remaining) := get_progress_info s in
      emit [MProgress completed remaining] s
  end.

(** [questions[lo:hi]] *)
Definition slice {A} (l : list A) (lo hi : nat) : list A :=
  take (hi - lo) (drop lo l).

(** Entering the [with ThreadPoolExecutor] block of one batch: every
    question of the batch is submitted, in order.  The submissions of a
    batch are taken as one step of the calling thread. *)
Definition submit_batch (s : sched) : sched :=
  let batch_end := min (batch_start s + BATCH_SIZE) total in
  let batch_questions := slice questions (batch_start s) batch_end in
  let batch_indices := seq (batch_start s) (batch_end - batch_start s) in
  let jobs := (fun p : nat * question => (p.1, get_input p.2))
                <$> zip batch_indices batch_questions in
  {| at_pc := InPool; batch_start := batch_start s; answers := answers s;
     file := file s;
     future_to_idx := list_to_map ((fun j : nat * str => (j.1, Queued j.2)) <$> jobs);
     trace := trace s ++ ((fun j : nat * str => MSubmit j.1 j.2) <$> jobs) |}.

(** Leaving the block, and the next value of [range(0, total, BATCH_SIZE)]. *)
Definition next_batch (s : sched) : sched :=
  {| at_pc := LoopHead; batch_start := batch_start s + BATCH_SIZE;
     answers := answers s; file := file s; future_to_idx := ∅;
     trace := trace s ++ [MShutdown] |}.

Definition exec (a : action) (s : sched) : option sched :=
  match a, at_pc s with
  | ASubmit, LoopHead =>
      if decide (batch_start s < total) then Some (submit_batch s) else None
  | AStart idx, InPool =>
      match future_to_idx s !! idx with
      | Some (Queued t) =>
          if decide (running (future_to_idx s) < BATCH_SIZE)
          then Some (emit [MStart idx] (set_future idx (Running t) s))
          else None
      | _ => None
      end
  | AFinish idx, InPool =>
      match future_to_idx s !! idx with
      | Some (Running t) =>
          Some (emit [MFinish idx] (set_future idx (Finished (run_task idx t)) s))
      | _ => None
      end
  | ACollect idx, InPool =>
      match future_to_idx s !! idx with
      | Some (Finished r) => Some (on_completed idx r (set_future idx Collected s))
      | _ => None
      end
  | AShutdown, InPool =>
      if all_collected (future_to_idx s) then Some (next_batch s) else None
  | AReturn, LoopHead =>
      if decide (total ≤ batch_start s)
      then Some (set_pc (Returned (render (answers s))) s)
      else None
  | _, _ => None
  end.

(** A schedule is a list of actions; it runs as long as each is enabled. *)
Fixpoint run (acts : list action) (s : sched) : option sched :=
  match acts with
  | [] => Some s
  | a :: rest =>
      match exec a s with
      | Some s' => run rest s'
      | None => None
      end
  end.

(** The steps of [exec], as a relation. *)
Inductive step (s : sched) : action -> sched -> Prop :=
| step_submit :
    at_pc s = LoopHead -> batch_start s < total ->
    step s ASubmit (submit_batch s)
| step_start idx t :
    at_pc s = InPool -> future_to_idx s !! idx = Some (Queued t) ->
    running (future_to_idx s) < BATCH_SIZE ->
    step s (AStart idx) (emit [MStart idx] (set_future idx (Running t) s))
| step_finish idx t :
    at_pc s = InPool -> future_to_idx s !! idx = Some (Running t) ->
    step s (AFinish idx)
      (emit [MFinish idx] (set_future idx (Finished (run_task idx t)) s))
| step_collect idx r :
    at_pc s = InPool -> future_to_idx s !! idx = Some (Finished r) ->
    step s (ACollect idx)
      (on_completed idx r (set_future idx Collected s))
| step_shutdown :
    at_pc s = InPool -> all_collected (future_to_idx s) = true ->
    step s AShutdown (next_batch s)
| step_return :
    at_pc s = LoopHead -> total <= batch_start s ->
    step s AReturn (set_pc (Returned (render (answers s))) s).

(** [answers = [None] * total], before the first batch; [file0] is what
    the snapshot file held before the call. *)
Definition init (file0 : list (list answer)) : sched :=
  {| at_pc := LoopHead; batch_start := 0; answers := replicate total None;
     file := file0; future_to_idx := ∅; trace := [] |}.

Definition reachable (file0 : list (list answer)) (s : sched) : Prop :=
  exists acts, run acts (init file0) = Some s.

(** The answer the code owes question [idx]: its task is [run_agent] on
    the question's text. *)
Definition answer_of (r : res str) : answer :=
  match r with
  | Ok v => {| output := strip v |}
  | Raise _ => {| output := [] |}
  end.

Definition text_of (idx : nat) : str :=
  get_input (default ∅ (questions !! idx)).

Definition expected (idx : nat) : answer :=
  answer_of (run_task idx (text_of idx)).

(** *** Invariants of the scheduler *)

Definition batch_end_of (s : sched) : nat :=
  min (batch_start s + BATCH_SIZE) total.

(** What slot [idx] holds, given where its future stands. *)
Definition slot_ok (idx : nat) (f : option fstate)
    (slot : option (option answer)) : Prop :=
  match f with
  | Some (Queued t) | Some (Running t) => t = text_of idx /\ slot = Some None
  | Some (Finished r) => r = run_task idx (text_of idx) /\ slot = Some None
  | Some Collected => slot = Some (Some (expected idx))
  | None => False
  end.

Record inv (f0 : list (list answer)) (s : sched) : Prop := {
  inv_len : length (answers s) = total;
  inv_mult : exists k, batch_start s = k * BATCH_SIZE;
  inv_done : forall idx, idx < batch_start s -> idx < total ->
    answers s !! idx = Some (Some (expected idx));
  inv_todo : at_pc s ≠ InPool ->
    forall idx, batch_start s <= idx < total -> answers s !! idx = Some None;
  inv_pool : at_pc s = InPool ->
    batch_start s < total
    /\ (forall idx, batch_start s <= idx < batch_end_of s ->
          slot_ok idx (future_to_idx s !! idx) (answers s !! idx))
    /\ (forall idx, is_Some (future_to_idx s !! idx) ->
          batch_start s <= idx < batch_end_of s)
    /\ (forall idx, batch_end_of s <= idx < total ->
          answers s !! idx = Some None);
  inv_ret : forall final, at_pc s = Returned final ->
    total <= batch_start s /\ final = render (answers s);
  inv_idle : at_pc s ≠ InPool -> future_to_idx s = ∅;
  inv_file : file s = f0 \/ file s = [render (answers s)]
}.

(** *** Reading a trace *)

(** Whether [save_lock] is held after the events of [tr]. *)
Definition lock_held (tr : list mevent) : bool :=
  foldl (fun held e =>
           match e with
           | MAcquire => true
           | MRelease => false
           | _ => held
           end) false tr.

(** The answer slots after the writes of [tr]. *)
Definition replay (tr : list mevent) : list (option answer) :=
  foldl (fun slots e =>
           match e with
           | MWrite idx a => <[idx := Some a]> slots
           | _ => slots
           end) (replicate total None) tr.

(** The snapshot file after the events of [tr], from the content [f0]. *)
Definition file_after (f0 : list (list answer)) (tr : list mevent)
    : list (list answer) :=
  foldl (fun f e =>
           match e with
           | MTruncate => []
           | MDump doc => f ++ [doc]
           | _ => f
           end) f0 tr.

(** The events of one slot write with its autosave and progress line. *)
Definition write_block (idx : nat) (a : answer)
    (slots' : list (option answer)) : list mevent :=
  [MWrite idx a; MAcquire; MTruncate; MDump (render slots'); MRelease;
   MProgress (filled slots') (total - filled slots')].

Definition exception_log (idx : nat) (r : res str) : list mevent :=
  match r with
  | Ok _ => []
  | Raise exc => [MLogException idx exc]
  end.

(** The events of the answer set and of its snapshot. *)
Definition is_store_event (e : mevent) : bool :=
  match e with
  | MWrite _ _ | MAcquire | MTruncate | MDump _ | MRelease | MProgress _ _ => true
  | _ => false
  end.

Definition is_start (e : mevent) : bool :=
  match e with MStart _ => true | _ => false end.

(** The events that touch neither the answer set nor the pool's queue. *)
Definition is_quiet (e : mevent) : bool :=
  match e with
  | MStart _ | MFinish _ | MLogException _ _ | MShutdown => true
  | _ => false
  end.

(** How the stored events of a trace are laid out: a write happens with
    the lock free and is followed at once by acquire, truncate, dump of
    the whole answer set, release, and the progress count; no dump or
    truncate happens without the lock, no progress count with it. *)
Record store_ok (tr : list mevent) : Prop := {
  store_free : lock_held tr = false;
  store_write : forall k idx a, tr !! k = Some (MWrite idx a) ->
    lock_held (take k tr) = false
    /\ tr !! (k + 1) = Some MAcquire
    /\ tr !! (k + 2) = Some MTruncate
    /\ tr !! (k + 3) = Some (MDump (render (replay (take (S k) tr))))
    /\ tr !! (k + 4) = Some MRelease
    /\ tr !! (k + 5)
       = Some (MProgress (filled (replay (take (S k) tr)))
                 (total - filled (replay (take (S k) tr))));
  store_dump : forall k doc, tr !! k = Some (MDump doc) ->
    lock_held (take k tr) = true
    /\ doc = render (replay (take k tr))
    /\ exists k', k = S k' /\ tr !! k' = Some MTruncate;
  store_truncate : forall k, tr !! k = Some MTruncate ->
    lock_held (take k tr) = true;
  store_progress : forall k c r, tr !! k = Some (MProgress c r) ->
    lock_held (take k tr) = false
}.

(** The submissions of a trace, in order: index and question text. *)
Definition submit_log (tr : list mevent) : list (nat * str) :=
  omap (fun e => match e with MSubmit idx t => Some (idx, t) | _ => None end) tr.

(** How many questions have been handed to a pool so far. *)
Definition submitted (s : sched) : nat :=
  match at_pc s with
  | InPool => batch_end_of s
  | _ => min (batch_start s) total
  end.

(** Question [idx] is completed within [tr]: its task is over, its slot
    has been written with the answer owed, and an exception of the task,
    if any, has been logged. *)
Definition completed_in (tr : list mevent) (idx : nat) : Prop :=
  MFinish idx ∈ tr
  /\ MWrite idx (expected idx) ∈ tr
  /\ forall exc, run_task idx (text_of idx) = Raise exc ->
       MLogException idx exc ∈ tr.

(** What the trace of a state records, and how it ties to the state. *)
Record inv_trace (f0 : list (list answer)) (s : sched) : Prop := {
  tr_store : store_ok (trace s);
  tr_replay : replay (trace s) = answers s;
  tr_file : file_after f0 (trace s) = file s;
  tr_submits :
    submit_log (trace s) = (fun i => (i, text_of i)) <$> seq 0 (submitted s);
  tr_done : forall idx, idx < total -> idx < batch_start s ->
    completed_in (trace s) idx;
  tr_pool : at_pc s = InPool -> forall idx,
    (forall r, future_to_idx s !! idx = Some (Finished r) -> MFinish idx ∈ trace s)
    /\ (future_to_idx s !! idx = Some Collected -> completed_in (trace s) idx);
  tr_barrier : forall k j, trace s !! k = Some (MStart j) ->
    forall i, i < total -> i / BATCH_SIZE < j / BATCH_SIZE ->
      completed_in (take k (trace s)) i
}.



(** A bound on the steps still to come: three per queued task, two per
    running task, one per finished task, and the bookkeeping of the loop. *)
Definition weight (f : fstate) : nat :=
  match f with
  | Queued _ => 3
  | Running _ => 2
  | Finished _ => 1
  | Collected => 0
  end.

Definition pool_weight (fs : gmap nat fstate) : nat :=
  map_fold (fun _ f acc => weight f + acc) 0 fs.

Definition steps_left (s : sched) : nat :=
  match at_pc s with
  | Returned _ => 0
  | LoopHead => 1 + 5 * (total - batch_start s)
  | InPool => 2 + 5 * (total - batch_end_of s) + pool_weight (future_to_idx s)
  end.

(** *** Further readings of a trace *)

(** The slots written, the progress counts reported, and the number of
    pools shut down, in the order of the trace. *)
Definition write_indices (tr : list mevent) : list nat :=
  omap (fun e => match e with MWrite idx _ => Some idx | _ => None end) tr.

Definition progress_log (tr : list mevent) : list (nat * nat) :=
  omap (fun e => match e with MProgress c r => Some (c, r) | _ => None end) tr.

Definition shutdowns (tr : list mevent) : nat :=
  length (omap (fun e => match e with MShutdown => Some () | _ => None end) tr).

Record inv_more (f0 : list (list answer)) (s : sched) : Prop := {
  im_progress :
    progress_log (trace s)
    = (fun k => (k, total - k)) <$> seq 1 (filled (answers s));
  im_nodup : NoDup (write_indices (trace s));
  im_writes : forall idx a, MWrite idx a ∈ trace s ->
    idx < total /\ a = expected idx /\ answers s !! idx = Some (Some a);
  im_file :
    file s = if decide (filled (answers s) = 0) then f0
             else [render (answers s)];
  im_pools :
    shutdowns (trace s) * BATCH_SIZE = batch_start s
    /\ batch_start s < total + BATCH_SIZE
}.

End Scheduler.

(** ** Reference definitions, written from the prose of the specification *)

(** [occurs sub s]: the literal [sub] occurs in [s]. *)
Definition occurs (sub s : str) : Prop :=
  exists pre post, s = pre ++ sub ++ post.

(** The start of the last occurrence of [sub] in [s], if there is one. *)
Fixpoint rfind (sub s : str) : option nat :=
  match s with
  | [] => if startswith sub [] then Some 0 else None
  | _ :: s' =>
      match rfind sub s' with
      | Some i => Some (S i)
      | None => if startswith sub s then Some 0 else None
      end
  end.

(** The first character of the separator occurs nowhere else in it: then
    occurrences cannot overlap, and none starts inside another. *)
Definition head_unique (sep : str) : Prop :=
  match sep with
  | [] => False
  | c0 :: sep' => ~ In c0 sep'
  end.

(** Remove every trailing [c]. *)
Fixpoint drop_trailing (c : char) (s : str) : str :=
  match s with
  | [] => []
  | x :: s' =>
      match drop_trailing c s' with
      | [] => if (x =? c)%N then [] else [x]
      | r => x :: r
      end
  end.

(** Remove every leading [c]. *)
Fixpoint drop_leading (c : char) (s : str) : str :=
  match s with
  | [] => []
  | x :: s' => if (x =? c)%N then drop_leading c s' else s
  end.

(** Delete every [c]. *)
Fixpoint delete_all (c : char) (s : str) : str :=
  match s with
  | [] => []
  | x :: s' => if (x =? c)%N then delete_all c s' else x :: delete_all c s'
  end.

(** Marker extraction as the specification words it. *)
Definition extract_answer_spec (text : str) : option str :=
  match rfind MARKER text with
  | None => None
  | Some i =>
      let after := drop (i + length MARKER) text in
      let a := strip after in
      let a := drop_trailing 46%N a in
      let a := drop_leading 43%N a in
      let a := delete_all 32%N a in
      match a with
      | [] => None
      | _ => Some a
      end
  end.

(** A well-formed reply of the service with the given content field. *)
Definition reply (c : json) : res response :=
  Ok {| status_code := 200;
        resp_json :=
          Ok (JObj [(lit "choices",
                JArr [JObj [(lit "message", JObj [(lit "content", c)])]])]) |}.

(** The requests and the pauses of a log, in order. *)
Definition posts (l : list event) : list request :=
  flat_map (fun e => match e with EvPost r => [r] | _ => [] end) l.

Definition sleeps (l : list event) : list Z :=
  flat_map (fun e => match e with EvSleep z => [z] | _ => [] end) l.

(** What the [try] block of [call_model_chat_completions] computes from
    the outcome of the request. *)
Definition response_text (r : res response) : res json :=
  resp ← r;
  if (status_code resp =? 200)%Z
  then data ← resp_json resp; choice_content data
  else Ok JNull.

(** Transport failure: the request raised (timeout, connection), the
    status is not a success, or reading the body raised. *)
Definition transport_failure (r : res response) : Prop :=
  match r with
  | Raise _ => True
  | Ok resp => status_code resp ≠ 200%Z \/ exists e, response_text r = Raise e
  end.

(** The one request a solve attempt for [q] sends, and the task state
    after sending it. *)
Definition the_request (q : str) : request := chat_request (solver_messages q).

Definition after_post (q : str) (st : tstate) : tstate :=
  {| calls := S (calls st); log := log st ++ [EvPost (the_request q)] |}.

(** The events of one attempt that yields absence. *)
Definition failed_attempt (q : str) (max_retries attempt : Z) : list event :=
  EvPost (the_request q)
  :: (if (attempt <? max_retries - 1)%Z then [EvSleep (1 * (attempt + 1))] else []).

(** The solver client yields absence on every call made for [q]. *)
Definition yields_absence (post : service) (q : str) : Prop :=
  forall st, exists raw st',
    ask_solver post q st = (Ok raw, st') /\ extract_answer raw = Ok None.

(** The cleanup [extract_answer] applies to what follows the marker. *)
Definition cleanup (after : str) : option str :=
  let ans := strip after in
  let ans := remove_char 32%N (lstrip (lit "+") (rstrip (lit ".") ans)) in
  if bool_decide (ans = []) then None else Some ans.

(** ** A small batch to run *)

(** Question 0 is answered at once; the service puts a number where the
    text of question 1 should be; question 2 has no input field and its
    first two requests time out. *)
Definition demo_world : nat -> service := fun idx k _ =>
  match idx with
  | 0 => reply (JStr (lit "6 times 7. FINAL ANSWER: 42."))
  | 1 => reply (JNum 5)
  | _ => if k <? 2 then Raise Timeout else reply (JStr (lit "FINAL ANSWER: +7"))
  end.

Definition demo_questions : list question :=
  [ {[ lit "input" := lit "6*7?" ]}; {[ lit "input" := lit "five?" ]}; ∅ ].

Definition demo_schedule : list action :=
  [ASubmit; AStart 2; AStart 0; AStart 1; AFinish 1; ACollect 1; AFinish 0;
   AFinish 2; ACollect 2; ACollect 0; AShutdown; AReturn].

(** One batch run with all its tasks in flight at once, completing in
    reverse order. *)
Definition parallel_batch (lo len : nat) : list action :=
  ASubmit :: (AStart <$> seq lo len) ++ (AFinish <$> rev (seq lo len))
    ++ (ACollect <$> rev (seq lo len)) ++ [AShutdown].

(** Twelve questions: one full batch and a second batch of two. *)
Definition twelve_questions : list question :=
  replicate 12 {[ lit "input" := lit "1+1?" ]}.

Definition twelve_world : nat -> service := fun _ _ _ =>
  reply (JStr (lit "FINAL ANSWER: 2")).


(** ** Further readings of a task and of a run *)

(** What [ask_solver] returns for the outcome [r] of its request. *)
Definition solver_raw (r : res response) : json :=
  match response_text r with
  | Ok t => py_or t (JStr [])
  | Raise _ => JStr []
  end.

(** What [call_model_chat_completions] returns for the outcome [r] of its
    request. *)
Definition completion_of (r : res response) : completion :=
  match r with
  | Ok resp =>
      if (status_code resp =? 200)%Z
      then match resp_json resp ≫= choice_content with
           | Ok t => {| ok := true; text := t |}
           | Raise _ => {| ok := false; text := JNull |}
           end
      else {| ok := false; text := JNull |}
  | Raise _ => {| ok := false; text := JNull |}
  end.

(** What the [k]-th solve attempt of a task yields for [q]. *)
Definition attempt_yield (post : service) (q : str) (k : nat)
    : res (option str) :=
  extract_answer (solver_raw (post k (the_request q))).

(** * Properties *)

(** ** Strings *)

Section StringFacts.

Lemma startswith_app (p s : str) :
  startswith p s = true <-> exists t, s = p ++ t.
Proof.
  revert s; induction p as [|a p IH]; intros s; simpl.
  - split; [intros _; by exists s | done].
  - destruct s as [|b s]; simpl.
    + split; [done | intros [t Ht]; discriminate].
    + rewrite andb_true_iff, N.eqb_eq, IH. split.
      * intros [-> [t ->]]. by exists t.
      * intros [t Ht]. injection Ht as -> ->. eauto.
Qed.

Lemma startswith_self_app (p t : str) : startswith p (p ++ t) = true.
Proof. apply startswith_app. by exists t. Qed.

Lemma split_go_skip (sep : str) (k : nat) (acc s : str) :
  split_go sep k acc s = split_go sep 0 acc (drop k s).
Proof.
  revert k; induction s as [|c s IH]; intros k.
  - by destruct k.
  - destruct k as [|k]; [done|]. simpl. apply IH.
Qed.

Lemma rfind_some_occurs (sub s : str) (i : nat) :
  rfind sub s = Some i -> startswith sub (drop i s) = true.
Proof.
  revert i; induction s as [|c s IH]; intros i; simpl.
  - destruct (startswith sub []) eqn:E; [|done]. intros [= <-]. done.
  - destruct (rfind sub s) as [j|] eqn:Ej.
    + intros [= <-]. simpl. by apply IH.
    + destruct (startswith sub (c :: s)) eqn:E; [|done]. by intros [= <-].
Qed.

Lemma rfind_some_last (sub s : str) (i j : nat) :
  rfind sub s = Some i -> i < j -> j <= length s ->
  startswith sub (drop j s) = false.
Proof.
  revert i j; induction s as [|c s IH]; intros i j; simpl.
  - intros _ ? ?; lia.
  - destruct (rfind sub s) as [k|] eqn:Ek.
    + intros [= <-] Hlt Hle. destruct j as [|j]; [lia|]. simpl.
      apply (IH k); [done | lia | lia].
    + intros _ Hlt Hle. destruct j as [|j]; [lia|]. simpl.
      clear IH Hlt. revert j Hle.
      induction s as [|d s IHs]; intros j Hle; simpl in *.
      * destruct j; [|lia]. simpl. by destruct (startswith sub []).
      * destruct (rfind sub s) as [k|] eqn:Ek'; [done|].
        destruct (startswith sub (d :: s)) eqn:Ed; [done|].
        destruct j as [|j]; [done|]. simpl. apply IHs; [done | lia].
Qed.

Lemma rfind_is_occurrence (sub s : str) (i : nat) :
  rfind sub s = Some i -> s = take i s ++ sub ++ drop (i + length sub) s.
Proof.
  intros E. apply rfind_some_occurs in E.
  apply startswith_app in E as [t Ht].
  rewrite <- drop_drop, Ht, drop_app_length, <- Ht. by rewrite take_drop.
Qed.

Lemma rfind_app_some (sub pre s : str) :
  is_Some (rfind sub s) -> is_Some (rfind sub (pre ++ s)).
Proof.
  intros H. induction pre as [|c pre IH]; [done|]. simpl.
  destruct IH as [i ->]. eauto.
Qed.

Lemma rfind_self_app (sub post : str) : is_Some (rfind sub (sub ++ post)).
Proof.
  pose proof (startswith_self_app sub post) as H.
  destruct (sub ++ post) as [|c s] eqn:E; simpl.
  - rewrite H. eauto.
  - destruct (rfind sub s); [eauto|]. rewrite H. eauto.
Qed.

Lemma rfind_none (sub s : str) :
  rfind sub s = None <-> ~ occurs sub s.
Proof.
  split.
  - intros Hn (pre & post & ->).
    destruct (rfind_app_some sub pre _ (rfind_self_app sub post)) as [i Hi].
    congruence.
  - intros Hno. destruct (rfind sub s) as [i|] eqn:E; [|done].
    exfalso. apply Hno. apply rfind_is_occurrence in E. eexists _, _. exact E.
Qed.

Lemma contains_rfind (sub s : str) :
  contains sub s = true <-> is_Some (rfind sub s).
Proof.
  induction s as [|c s IH]; simpl.
  - destruct (startswith sub []); simpl; split; eauto; try done.
  - rewrite orb_true_iff, IH. destruct (rfind sub s) as [i|].
    + split; eauto.
    + destruct (startswith sub (c :: s)); split; eauto;
        first [by intros [?|[? ?]] | by intros [? ?]].
Qed.

Lemma contains_occurs (sub s : str) :
  contains sub s = true <-> occurs sub s.
Proof.
  rewrite contains_rfind.
  destruct (rfind sub s) as [i|] eqn:E.
  - split; [intros _|eauto].
    apply rfind_is_occurrence in E. eexists _, _. exact E.
  - split; [by intros [? ?]|]. intros Ho. by apply rfind_none in Ho.
Qed.

Lemma rfind_skip (c0 : char) (sep' pre t : str) :
  ~ In c0 pre ->
  rfind (c0 :: sep') (pre ++ t) = (fun i => length pre + i) <$> rfind (c0 :: sep') t.
Proof.
  induction pre as [|p pre IH]; intros Hpre.
  - simpl. by destruct (rfind (c0 :: sep') t).
  - cbn [app rfind]. rewrite IH by (intros ?; apply Hpre; by right).
    destruct (rfind (c0 :: sep') t) as [i|]; [done|]. cbn.
    destruct (N.eqb_spec c0 p) as [->|]; [|done].
    exfalso. apply Hpre. by left.
Qed.

Lemma split_go_last (sep : str) (n : nat) :
  head_unique sep ->
  forall s acc, length s <= n ->
    last (split_go sep 0 acc s)
    = Some (match rfind sep s with
            | Some i => drop (i + length sep) s
            | None => rev acc ++ s
            end).
Proof.
  destruct sep as [|c0 sep']; [done|]. intros Hu.
  induction n as [|n IH]; intros s acc Hlen.
  - destruct s; [|simpl in Hlen; lia]. simpl. by rewrite app_nil_r.
  - destruct s as [|c s]; [simpl; by rewrite app_nil_r|].
    cbn [split_go rfind]. simpl in Hlen.
    destruct (startswith (c0 :: sep') (c :: s)) eqn:Es.
    + apply startswith_app in Es as [t Ht]. injection Ht as -> ->.
      replace (length (c0 :: sep') - 1) with (length sep') by (simpl; lia).
      rewrite split_go_skip, drop_app_length.
      rewrite last_cons, (IH t []) by (rewrite length_app in Hlen; lia).
      rewrite rfind_skip by done.
      destruct (rfind (c0 :: sep') t) as [i|]; cbn [fmap option_fmap option_map].
      * f_equal. change (c0 :: sep' ++ t) with ([c0] ++ sep' ++ t).
        replace (S (length sep' + i) + length (c0 :: sep'))
          with (length [c0] + (length sep' + (i + length (c0 :: sep'))))
          by (simpl; lia).
        by rewrite <- !drop_drop, !drop_app_length.
      * f_equal. change (c0 :: sep' ++ t) with ((c0 :: sep') ++ t).
        by rewrite Nat.add_0_l, drop_app_length.
    + rewrite (IH s (c :: acc)) by lia.
      destruct (rfind (c0 :: sep') s) as [i|]; [done|].
      simpl. by rewrite <- app_assoc.
Qed.

(** The last piece of [s.split(sep)] is what follows the last occurrence. *)
Lemma split_last (sep s : str) :
  head_unique sep ->
  last (split sep s)
  = Some (match rfind sep s with
          | Some i => drop (i + length sep) s
          | None => s
          end).
Proof.
  intros Hu. unfold split. by rewrite (split_go_last sep (length s) Hu s []).
Qed.

Lemma rfind_at_end (sep pre t : str) :
  head_unique sep -> rfind sep t = None ->
  rfind sep (pre ++ sep ++ t) = Some (length pre).
Proof.
  destruct sep as [|c0 sep']; [done|]. intros Hu Ht.
  induction pre as [|p pre IH].
  - cbn [app rfind length]. rewrite rfind_skip, Ht by done. cbn.
    by rewrite N.eqb_refl, startswith_self_app.
  - cbn [app rfind length]. cbn [app] in IH. by rewrite IH.
Qed.

Lemma MARKER_head_unique : head_unique MARKER.
Proof. vm_compute. intuition discriminate. Qed.

Lemma rstrip_by_cons (p : char -> bool) (x : char) (s : str) :
  rstrip_by p (x :: s)
  = match rstrip_by p s with
    | [] => if p x then [] else [x]
    | r => x :: r
    end.
Proof.
  unfold rstrip_by. simpl rev.
  induction (rev s) as [|y l IH]; simpl.
  - by destruct (p x).
  - destruct (p y) eqn:Ey; [exact IH|].
    simpl. rewrite rev_app_distr. simpl.
    destruct (rev l ++ [y]) eqn:E; [by destruct (rev l)|]. by rewrite <- E.
Qed.

Lemma rstrip_dot (s : str) : rstrip (lit ".") s = drop_trailing 46%N s.
Proof.
  unfold rstrip. induction s as [|x s IH]; [done|].
  rewrite rstrip_by_cons, IH. simpl.
  destruct (drop_trailing 46 s); [|done].
  unfold in_chars. simpl. by rewrite orb_false_r.
Qed.

Lemma lstrip_plus (s : str) : lstrip (lit "+") s = drop_leading 43%N s.
Proof.
  unfold lstrip, lstrip_by. induction s as [|x s IH]; [done|].
  cbn [drop_while drop_leading]. rewrite IH.
  unfold in_chars. simpl. by rewrite orb_false_r.
Qed.

Lemma remove_char_delete_all (c : char) (s : str) :
  remove_char c s = delete_all c s.
Proof.
  unfold remove_char. induction s as [|x s IH]; [done|].
  rewrite filter_cons, IH. simpl.
  destruct (N.eqb_spec x c); by case_decide.
Qed.

Lemma drop_while_length (p : char -> bool) (s : str) :
  length (drop_while p s) <= length s.
Proof. induction s as [|c s IH]; simpl; [lia|]. destruct (p c); simpl; lia. Qed.

Lemma drop_while_fix (p : char -> bool) (s : str) :
  drop_while p s = s <-> match s with [] => True | c :: _ => p c = false end.
Proof.
  destruct s as [|c s]; [done|]. simpl. destruct (p c) eqn:E; [|done].
  split; [|done]. intros H. pose proof (drop_while_length p s) as Hl.
  rewrite H in Hl. simpl in Hl. lia.
Qed.

Lemma drop_while_idem (p : char -> bool) (s : str) :
  drop_while p (drop_while p s) = drop_while p s.
Proof.
  induction s as [|c s IH]; [done|]. simpl.
  destruct (p c) eqn:E; [done|]. simpl. by rewrite E.
Qed.

Lemma drop_while_suffix (p : char -> bool) (s : str) :
  exists pre, s = pre ++ drop_while p s.
Proof.
  induction s as [|c s [pre IH]]; [by exists []|]. simpl.
  destruct (p c); [|by exists []]. exists (c :: pre). simpl. by f_equal.
Qed.

(** Stripping the left of a string that has nothing to strip on the right
    leaves nothing to strip on the right. *)
Lemma rstrip_by_lstrip_by (p : char -> bool) (s : str) :
  rstrip_by p s = s -> rstrip_by p (lstrip_by p s) = lstrip_by p s.
Proof.
  unfold rstrip_by, lstrip_by. intros Hs.
  assert (Hr : drop_while p (rev s) = rev s)
    by (rewrite <- Hs at 2; by rewrite rev_involutive).
  destruct (drop_while_suffix p s) as [pre Hpre].
  set (u := drop_while p s) in *.
  assert (drop_while p (rev u) = rev u); [|by rewrite H, rev_involutive].
  apply drop_while_fix. apply drop_while_fix in Hr.
  rewrite Hpre, rev_app_distr in Hr.
  destruct (rev u) as [|x w]; [done|]. done.
Qed.

Lemma rstrip_by_idem (p : char -> bool) (s : str) :
  rstrip_by p (rstrip_by p s) = rstrip_by p s.
Proof. unfold rstrip_by. by rewrite rev_involutive, drop_while_idem. Qed.

Lemma strip_idem (s : str) : strip (strip s) = strip s.
Proof.
  unfold strip.
  rewrite (rstrip_by_lstrip_by isspace (rstrip_by isspace s))
    by apply rstrip_by_idem.
  unfold lstrip_by. by rewrite drop_while_idem.
Qed.

End StringFacts.

(** ** The solver client *)

Section SolverFacts.

Variable post : service.

Lemma extract_answer_str (s : str) :
  extract_answer (JStr s)
  = Ok (match rfind MARKER s with
        | Some i => cleanup (drop (i + length MARKER) s)
        | None => None
        end).
Proof.
  unfold extract_answer. cbn [truthy].
  destruct s as [|c s]; [done|].
  rewrite bool_decide_eq_false_2 by done. cbn [negb py_in mbind res_bind].
  destruct (contains MARKER (c :: s)) eqn:Ec.
  - apply contains_rfind in Ec as [i Hi]. rewrite Hi.
    cbn [negb py_split mbind res_bind].
    rewrite (split_last _ _ MARKER_head_unique), Hi. done.
  - destruct (rfind MARKER (c :: s)) as [i|] eqn:Hi; [|done].
    assert (contains MARKER (c :: s) = true) by (apply contains_rfind; eauto).
    congruence.
Qed.

Lemma cleanup_spec (after : str) :
  cleanup after
  = match delete_all 32%N (drop_leading 43%N (drop_trailing 46%N (strip after))) with
    | [] => None
    | a => Some a
    end.
Proof.
  unfold cleanup. rewrite rstrip_dot, lstrip_plus, remove_char_delete_all.
  by destruct (delete_all _ _).
Qed.

Lemma extract_answer_no_marker (s : str) :
  contains MARKER s = false -> extract_answer (JStr s) = Ok None.
Proof.
  intros Hc. rewrite extract_answer_str.
  destruct (rfind MARKER s) as [i|] eqn:Hi; [|done].
  assert (contains MARKER s = true) by (apply contains_rfind; eauto).
  congruence.
Qed.

Lemma extract_answer_at_end (pre after : str) :
  rfind MARKER after = None ->
  extract_answer (JStr (pre ++ MARKER ++ after)) = Ok (cleanup after).
Proof.
  intros Hn. rewrite extract_answer_str.
  rewrite (rfind_at_end _ _ _ MARKER_head_unique Hn).
  by rewrite <- drop_drop, !drop_app_length.
Qed.

(** One call of [ask_solver] makes exactly one request and never raises;
    what it returns is the content field read from the reply, or the empty
    string. *)
Lemma ask_solver_run (q : str) (st : tstate) :
  ask_solver post q st
  = (Ok (match response_text (post (calls st) (the_request q)) with
         | Ok t => py_or t (JStr [])
         | Raise _ => JStr []
         end), after_post q st).
Proof.
  unfold ask_solver, call_model_chat_completions, response_text, after_post.
  unfold mbind at 1. unfold task_bind, try_except.
  unfold mbind at 1. unfold task_bind, requests_post. fold (the_request q).
  destruct (post (calls st) (the_request q)) as [resp|e]; [|done].
  cbn [mbind res_bind].
  destruct (status_code resp =? 200)%Z; [|done].
  unfold mbind at 1. unfold task_bind, lift.
  destruct (resp_json resp) as [data|e]; [|done].
  cbn [mbind res_bind]. unfold mbind at 1. unfold task_bind.
  by destruct (choice_content data) as [t|e].
Qed.

Lemma run_agent_loop_absent (q : str) (m : Z) (attempts : list Z) (st : tstate) :
  yields_absence post q ->
  run_agent_loop post q m attempts st
  = (Ok [],
     {| calls := calls st + length attempts;
        log := log st ++ flat_map (failed_attempt q m) attempts |}).
Proof.
  intros Habs. revert st. induction attempts as [|a rest IH]; intros st.
  - simpl. destruct st. by rewrite Nat.add_0_r, app_nil_r.
  - cbn [run_agent_loop flat_map length]. unfold failed_attempt at 1.
    unfold mbind at 1. unfold task_bind at 1.
    destruct (Habs st) as (raw & st' & Hask & Hex).
    rewrite Hask. rewrite ask_solver_run in Hask. injection Hask as _ <-.
    unfold mbind at 1. unfold task_bind at 1, lift. rewrite Hex.
    cbn [opt_truthy]. unfold mbind at 1. unfold task_bind at 1.
    destruct (a <? m - 1)%Z; cbn [time_sleep mret task_ret]; rewrite IH;
      cbn [calls log after_post]; rewrite <- ?app_assoc;
      do 2 f_equal; lia.
Qed.

Lemma posts_failed (q : str) (m : Z) (attempts : list Z) :
  posts (flat_map (failed_attempt q m) attempts)
  = replicate (length attempts) (the_request q).
Proof.
  induction attempts as [|a rest IH]; [done|].
  cbn [flat_map length replicate]. unfold posts in *.
  rewrite flat_map_app, IH. unfold failed_attempt.
  by destruct (a <? m - 1)%Z.
Qed.

Lemma sleeps_failed (q : str) (m : Z) (n a : nat) :
  (Z.of_nat (a + n) = m)%Z ->
  sleeps (flat_map (failed_attempt q m) (map Z.of_nat (seq a n)))
  = map Z.of_nat (seq (S a) (n - 1)).
Proof.
  revert a. induction n as [|n IH]; intros a Hm; [done|].
  cbn [seq map flat_map]. unfold sleeps in *.
  rewrite flat_map_app, (IH (S a)) by lia. unfold failed_attempt.
  destruct (Z.ltb_spec (Z.of_nat a) (m - 1)) as [Hlt|Hge].
  - destruct n as [|n]; [lia|]. cbn [flat_map app].
    replace (S (S n) - 1) with (S (S n - 1)) by lia. cbn [seq map].
    f_equal. lia.
  - destruct n as [|n]; [done|lia].
Qed.

Lemma last_failed (q : str) (m : Z) (n a : nat) :
  (Z.of_nat (a + S n) = m)%Z ->
  last (flat_map (failed_attempt q m) (map Z.of_nat (seq a (S n))))
  = Some (EvPost (the_request q)).
Proof.
  revert a. induction n as [|n IH]; intros a Hm.
  - cbn [seq map flat_map]. unfold failed_attempt.
    destruct (Z.ltb_spec (Z.of_nat a) (m - 1)); [lia|done].
  - change (seq a (S (S n))) with (a :: seq (S a) (S n)).
    cbn [map flat_map]. rewrite last_app, (IH (S a)) by lia. done.
Qed.



End SolverFacts.

(** C9: [extract_answer] on a text agrees with the reference reading: no
    marker gives absence; otherwise what follows the last occurrence is
    stripped, loses every trailing period, every leading plus and every
    space, and an empty result is absence. *)
Theorem extract_answer_refines_spec (raw_text : str) :
  extract_answer (JStr raw_text) = Ok (extract_answer_spec raw_text).
Proof.
  rewrite extract_answer_str. unfold extract_answer_spec.
  destruct (rfind MARKER raw_text) as [i|]; [|done].
  rewrite cleanup_spec. cbv zeta. by destruct (delete_all _ _).
Qed.

(** C5: a text ending in [FINAL ANSWER: 42.] gives [42], one ending in
    [FINAL ANSWER: +7] gives [7], and a text without the marker gives
    absence. *)
Theorem extract_answer_reference_shapes (text : str) :
  extract_answer (JStr (text ++ lit "FINAL ANSWER: 42.")) = Ok (Some (lit "42"))
  /\ extract_answer (JStr (text ++ lit "FINAL ANSWER: +7")) = Ok (Some (lit "7"))
  /\ (contains MARKER text = false -> extract_answer (JStr text) = Ok None).
Proof.
  split; [|split].
  - change (lit "FINAL ANSWER: 42.") with (MARKER ++ lit " 42.").
    by rewrite extract_answer_at_end.
  - change (lit "FINAL ANSWER: +7") with (MARKER ++ lit " +7").
    by rewrite extract_answer_at_end.
  - apply extract_answer_no_marker.
Qed.

Lemma extract_answer_reference_shapes_witness :
  extract_answer (JStr (lit "The sum is 42")) = Ok None.
Proof.
  apply (extract_answer_reference_shapes (lit "The sum is 42")).
  vm_compute. reflexivity.
Defined.

(** C8: a solve attempt sends exactly one request and does not raise; on
    a transport failure, and on a reply whose text lacks the marker, the
    attempt yields absence. *)
Theorem solver_client_absorbs_failures (post : service) (q : str) (st : tstate) :
  exists raw,
    ask_solver post q st = (Ok raw, after_post q st)
    /\ (transport_failure (post (calls st) (the_request q)) ->
        extract_answer raw = Ok None)
    /\ (forall s,
          response_text (post (calls st) (the_request q)) = Ok (JStr s) ->
          contains MARKER s = false ->
          extract_answer raw = Ok None).
Proof.
  eexists. split; [apply ask_solver_run|]. split.
  - unfold transport_failure.
    destruct (post (calls st) (the_request q)) as [resp|e] eqn:E; [|done].
    intros [Hs|[e He]].
    + unfold response_text. cbn [mbind res_bind].
      apply Z.eqb_neq in Hs. by rewrite Hs.
    + by rewrite He.
  - intros s Hs Hc. rewrite Hs.
    destruct s as [|c s]; [done|].
    change (py_or (JStr (c :: s)) (JStr [])) with (JStr (c :: s)).
    by apply extract_answer_no_marker.
Qed.

Lemma solver_client_absorbs_failures_witness :
  exists raw,
    ask_solver (fun _ _ => Raise Timeout) (lit "2+2?") tstate0
    = (Ok raw, after_post (lit "2+2?") tstate0)
    /\ extract_answer raw = Ok None.
Proof.
  destruct (solver_client_absorbs_failures
              (fun _ _ => Raise Timeout) (lit "2+2?") tstate0)
    as (raw & Hrun & Hfail & _).
  exists raw. split; [exact Hrun|]. apply Hfail. simpl. exact I.
Defined.

(** C4: when every solve attempt yields absence, [run_agent] makes exactly
    [max_retries] attempts, pauses 1, 2, ... seconds after every attempt
    but the last, and returns the empty string; with the default of three
    attempts the pauses are 1 s and 2 s, 3 s in all. *)
Theorem run_agent_exhausts_retries (post : service) (q : str) (max_retries : Z) :
  (0 <= max_retries)%Z ->
  yields_absence post q ->
  let out := run_agent post q max_retries tstate0 in
  out.1 = Ok []
  /\ calls out.2 = Z.to_nat max_retries
  /\ posts (log out.2) = replicate (Z.to_nat max_retries) (the_request q)
  /\ sleeps (log out.2) = map Z.of_nat (seq 1 (Z.to_nat max_retries - 1))
  /\ (forall z, last (log out.2) ≠ Some (EvSleep z))
  /\ (max_retries = DEFAULT_MAX_RETRIES ->
      log out.2 = [EvPost (the_request q); EvSleep 1; EvPost (the_request q);
                   EvSleep 2; EvPost (the_request q)]
      /\ fold_right Z.add 0%Z (sleeps (log out.2)) = 3%Z).
Proof.
  intros Hm Habs out. subst out. unfold run_agent.
  rewrite run_agent_loop_absent by done. cbn [fst snd calls log tstate0 app].
  assert (Hlen : length (py_range max_retries) = Z.to_nat max_retries).
  { unfold py_range. by rewrite length_map, length_seq. }
  repeat split.
  - by rewrite Hlen.
  - by rewrite posts_failed, Hlen.
  - unfold py_range. apply sleeps_failed. lia.
  - intros z. unfold py_range.
    destruct (Z.to_nat max_retries) as [|n] eqn:En; [done|].
    rewrite last_failed by lia. done.
  - by subst max_retries.
  - by subst max_retries.
Qed.

Lemma run_agent_exhausts_retries_witness :
  (run_agent (fun _ _ => Raise Timeout) (lit "2+2?") 3 tstate0).1 = Ok []
  /\ sleeps (log (run_agent (fun _ _ => Raise Timeout) (lit "2+2?") 3 tstate0).2)
     = [1; 2]%Z.
Proof.
  assert (Habs : yields_absence (fun _ _ => Raise Timeout) (lit "2+2?")).
  { intros st. eexists _, _. split; reflexivity. }
  destruct (run_agent_exhausts_retries
              (fun _ _ => Raise Timeout) (lit "2+2?") 3 ltac:(lia) Habs)
    as (Hr & _ & _ & Hs & _).
  split; [exact Hr | exact Hs].
Defined.

(** ** Traces *)

Section TraceFacts.

Variable questions : list question.

Local Abbreviation replay := (replay questions).
Local Abbreviation store_ok := (store_ok questions).
Local Abbreviation write_block := (write_block questions).

Lemma lock_held_app (tr evs : list mevent) :
  lock_held (tr ++ evs)
  = foldl (fun held e =>
             match e with
             | MAcquire => true
             | MRelease => false
             | _ => held
             end) (lock_held tr) evs.
Proof. apply foldl_app. Qed.

Lemma replay_app (tr evs : list mevent) :
  replay (tr ++ evs)
  = foldl (fun slots e =>
             match e with
             | MWrite idx a => <[idx := Some a]> slots
             | _ => slots
             end) (replay tr) evs.
Proof. apply foldl_app. Qed.

Lemma file_after_app (f0 : list (list answer)) (tr evs : list mevent) :
  file_after f0 (tr ++ evs)
  = foldl (fun f e =>
             match e with
             | MTruncate => []
             | MDump doc => f ++ [doc]
             | _ => f
             end) (file_after f0 tr) evs.
Proof. apply foldl_app. Qed.

Lemma replay_length (tr : list mevent) : length (replay tr) = total questions.
Proof.
  induction tr as [|e tr IH] using rev_ind.
  - apply length_replicate.
  - rewrite replay_app. simpl. destruct e; try done. by rewrite length_insert.
Qed.

Lemma lock_held_other (tr evs : list mevent) :
  Forall (fun e => is_store_event e = false) evs ->
  lock_held (tr ++ evs) = lock_held tr.
Proof.
  intros Hevs. rewrite lock_held_app. generalize (lock_held tr).
  induction Hevs as [|e evs He _ IH]; intros h; [done|].
  cbn [foldl]. rewrite IH. by destruct e.
Qed.

Lemma replay_other (tr evs : list mevent) :
  Forall (fun e => is_store_event e = false) evs ->
  replay (tr ++ evs) = replay tr.
Proof.
  intros Hevs. rewrite replay_app. generalize (replay tr).
  induction Hevs as [|e evs He _ IH]; intros h; [done|].
  cbn [foldl]. rewrite IH. by destruct e.
Qed.

Lemma file_after_other (f0 : list (list answer)) (tr evs : list mevent) :
  Forall (fun e => is_store_event e = false) evs ->
  file_after f0 (tr ++ evs) = file_after f0 tr.
Proof.
  intros Hevs. rewrite file_after_app. generalize (file_after f0 tr).
  induction Hevs as [|e evs He _ IH]; intros h; [done|].
  cbn [foldl]. rewrite IH. by destruct e.
Qed.

(** A stored event found in [tr ++ evs], where [evs] has none, lies in [tr]. *)
Lemma lookup_app_store (tr evs : list mevent) (k : nat) (e : mevent) :
  Forall (fun e => is_store_event e = false) evs ->
  (tr ++ evs) !! k = Some e -> is_store_event e = true ->
  tr !! k = Some e.
Proof.
  intros Hevs Hk He. apply lookup_app_Some in Hk as [Hk|[_ Hk]]; [done|].
  apply list_elem_of_lookup_2 in Hk.
  rewrite Forall_forall in Hevs. apply Hevs in Hk. congruence.
Qed.

Lemma store_ok_nil : store_ok [].
Proof. split; try done; intros k; intros; by rewrite lookup_nil in *. Qed.

Ltac old_prefix Hk :=
  pose proof (lookup_lt_Some _ _ _ Hk);
  rewrite ?(take_app_le _ _ _) by lia.

Lemma store_ok_other (tr evs : list mevent) :
  store_ok tr ->
  Forall (fun e => is_store_event e = false) evs ->
  store_ok (tr ++ evs).
Proof.
  intros [Hfree Hw Hd Ht Hp] Hevs. split.
  - by rewrite lock_held_other.
  - intros k idx a Hk. apply lookup_app_store in Hk; [|done..].
    old_prefix Hk. destruct (Hw k idx a Hk) as (? & ? & ? & ? & ? & ?).
    repeat split; try by apply lookup_app_l_Some.
    done.
  - intros k doc Hk. apply lookup_app_store in Hk; [|done..].
    old_prefix Hk. destruct (Hd k doc Hk) as (? & ? & k' & ? & ?).
    repeat split; try done. exists k'. split; [done|]. by apply lookup_app_l_Some.
  - intros k Hk. apply lookup_app_store in Hk; [|done..].
    old_prefix Hk. by apply Ht.
  - intros k c r Hk. apply lookup_app_store in Hk; [|done..].
    old_prefix Hk. by eapply Hp.
Qed.

(** The positions of [tr ++ blk] past [tr], one by one. *)
Ltac in_block Hk tr :=
  let j := fresh "j" in
  let Hj := fresh "Hj" in
  let Hlen := fresh "Hlen" in
  apply lookup_app_Some in Hk as [Hk|[Hlen Hk]];
  [|match type of Hk with
    | _ !! (?k - _) = _ =>
        remember (k - length tr) as j eqn:Hj;
        assert (k = length tr + j) as -> by lia; clear Hj Hlen;
        do 7 (try destruct j as [|j]); try discriminate
    end].

Lemma store_ok_block (tr : list mevent) (idx : nat) (a : answer) :
  store_ok tr ->
  store_ok (tr ++ write_block idx a (<[idx := Some a]> (replay tr))).
Proof.
  intros [Hfree Hw Hd Ht Hp].
  set (blk := write_block idx a (<[idx := Some a]> (replay tr))).
  assert (Htake : forall j, take (length tr + j) (tr ++ blk) = tr ++ take j blk)
    by (intros; apply take_app_add).
  assert (Hlook : forall j, (tr ++ blk) !! (length tr + j) = blk !! j).
  { intros j. rewrite lookup_app_r by lia. f_equal. lia. }
  split.
  - rewrite lock_held_app. simpl. done.
  - intros k i b Hk. in_block Hk tr.
    + old_prefix Hk. destruct (Hw k i b Hk) as (? & ? & ? & ? & ? & ?).
      repeat split; try by apply lookup_app_l_Some.
      done.
    + injection Hk as -> ->.
      rewrite <- !Nat.add_assoc, !Hlook, Htake.
      replace (S (length tr + 0)) with (length tr + 1) by lia.
      rewrite Htake, app_nil_r. simpl take. rewrite replay_app. simpl.
      repeat split; done.
  - intros k doc Hk. in_block Hk tr.
    + old_prefix Hk. destruct (Hd k doc Hk) as (? & ? & k' & ? & ?).
      repeat split; try done. exists k'. split; [done|]. by apply lookup_app_l_Some.
    + injection Hk as <-. rewrite Htake. simpl take.
      rewrite lock_held_app, replay_app. simpl. repeat split; try done.
      exists (length tr + 2). split; [lia|]. by rewrite Hlook.
  - intros k Hk. in_block Hk tr.
    + old_prefix Hk. by apply Ht.
    + rewrite Htake. rewrite lock_held_app. done.
  - intros k c r Hk. in_block Hk tr.
    + old_prefix Hk. by eapply Hp.
    + rewrite Htake. rewrite lock_held_app. done.
Qed.

End TraceFacts.

(** ** The scheduler *)

Section SchedulerFacts.

Variable world : nat -> service.
Variable questions : list question.
Variable file0 : list (list answer).

Local Abbreviation N := (total questions).
Local Abbreviation text := (text_of questions).
Local Abbreviation batch_end := (batch_end_of questions).
Local Abbreviation step := (step world questions).
Local Abbreviation inv := (inv world questions file0).
Local Abbreviation inv_trace := (inv_trace world questions file0).
Local Abbreviation completed_in := (completed_in world questions).

Lemma BATCH_SIZE_pos : 0 < BATCH_SIZE.
Proof. unfold BATCH_SIZE. lia. Qed.

Lemma zip_seq_slice (lo len : nat) :
  lo + len <= N ->
  zip (seq lo len) (slice questions lo (lo + len))
  = (fun i => (i, default ∅ (questions !! i))) <$> seq lo len.
Proof.
  unfold slice. replace (lo + len - lo) with len by lia.
  revert lo. induction len as [|len IH]; intros lo Hle; [done|].
  destruct (lookup_lt_is_Some_2 questions lo) as [q Hq]; [unfold total in Hle; lia|].
  rewrite (drop_S _ _ _ Hq). cbn [seq take zip zip_with fmap list_fmap].
  rewrite Hq. f_equal. apply IH. lia.
Qed.

Lemma lookup_list_to_map_seq {A} (f : nat -> A) (lo len idx : nat) :
  (list_to_map ((fun i => (i, f i)) <$> seq lo len) : gmap nat A) !! idx
  = if decide (lo <= idx < lo + len) then Some (f idx) else None.
Proof.
  revert lo. induction len as [|len IH]; intros lo.
  - simpl. rewrite lookup_empty. case_decide; [lia|done].
  - cbn [seq fmap list_fmap]. rewrite list_to_map_cons, lookup_insert, IH.
    repeat case_decide; subst; try done; lia.
Qed.

(** What [submit_batch] builds, index by index. *)
Lemma submit_batch_eq (s : sched) :
  batch_start s < N ->
  submit_batch questions s
  = {| at_pc := InPool; batch_start := batch_start s; answers := answers s;
       file := file s;
       future_to_idx :=
         list_to_map ((fun i => (i, Queued (text i)))
                        <$> seq (batch_start s) (batch_end s - batch_start s));
       trace := trace s ++ ((fun i => MSubmit i (text i))
                        <$> seq (batch_start s) (batch_end s - batch_start s)) |}.
Proof.
  intros Hlt. unfold submit_batch, text_of.
  pose proof (zip_seq_slice (batch_start s) (batch_end s - batch_start s)) as Hz.
  unfold batch_end_of in *.
  replace (batch_start s + (min (batch_start s + BATCH_SIZE) N - batch_start s))
    with (min (batch_start s + BATCH_SIZE) N) in Hz by lia.
  cbv zeta. rewrite Hz by lia.
  rewrite <- !list_fmap_compose. done.
Qed.

Lemma exec_step (a : action) (s s' : sched) :
  exec world questions a s = Some s' <-> step s a s'.
Proof.
  split.
  - unfold exec. intros H.
    destruct a, (at_pc s) eqn:Epc; try discriminate.
    + case_decide; [|done]. injection H as <-. by constructor.
    + destruct (future_to_idx s !! idx) as [[t| | |]|] eqn:Ef; try discriminate.
      case_decide; [|done]. injection H as <-. by constructor.
    + destruct (future_to_idx s !! idx) as [[|t| |]|] eqn:Ef; try discriminate.
      injection H as <-. by constructor.
    + destruct (future_to_idx s !! idx) as [[| |r|]|] eqn:Ef; try discriminate.
      injection H as <-. by constructor.
    + destruct (all_collected (future_to_idx s)) eqn:Ec; [|done].
      injection H as <-. by constructor.
    + case_decide; [|done]. injection H as <-. by constructor.
  - unfold exec.
    intros [Hpc Hlt|idx t Hpc Hf Hr|idx t Hpc Hf|idx r Hpc Hf|Hpc Hc|Hpc Hge];
      rewrite Hpc, ?Hf, ?Hc; try done; by case_decide.
Qed.

Lemma sched_eq (s1 s2 : sched) :
  at_pc s1 = at_pc s2 -> batch_start s1 = batch_start s2 ->
  answers s1 = answers s2 -> file s1 = file s2 ->
  future_to_idx s1 = future_to_idx s2 -> trace s1 = trace s2 -> s1 = s2.
Proof. destruct s1, s2; cbn; intros; by subst. Qed.

Lemma on_completed_eq (idx : nat) (r : res str) (s : sched) :
  on_completed questions idx r s
  = {| at_pc := at_pc s; batch_start := batch_start s;
       answers := <[idx := Some (answer_of r)]> (answers s);
       file := [render (<[idx := Some (answer_of r)]> (answers s))];
       future_to_idx := future_to_idx s;
       trace := trace s
         ++ exception_log idx r
         ++ write_block questions idx (answer_of r)
              (<[idx := Some (answer_of r)]> (answers s)) |}.
Proof.
  destruct r as [v|e]; apply sched_eq; unfold on_completed; cbn;
    rewrite <- ?app_assoc; reflexivity.
Qed.

Lemma inv_init : inv (init questions file0).
Proof.
  split; cbn; try done.
  - apply length_replicate.
  - by exists 0.
  - intros; lia.
  - intros _ idx [_ Hlt]. by apply lookup_replicate_2.
  - by left.
Qed.

Lemma inv_step (s s' : sched) (a : action) :
  inv s -> step s a s' -> inv s'.
Proof.
  intros [Hlen Hmult Hdone Htodo Hpool Hret Hidle Hfile] Hstep.
  destruct Hstep as [Hpc Hlt|idx t Hpc Hf Hr|idx t Hpc Hf|idx r Hpc Hf|Hpc Hc|Hpc Hge].
  - rewrite submit_batch_eq by done.
    split; cbn; try done.
    intros _. unfold batch_end_of; cbn. fold (batch_end s).
    split; [done|]. split; [|split].
    + intros idx Hidx. rewrite lookup_list_to_map_seq.
      rewrite decide_True by lia. cbn. split; [done|].
      apply Htodo; [by rewrite Hpc|]. unfold batch_end_of in Hidx. lia.
    + intros idx. rewrite lookup_list_to_map_seq. case_decide; [lia|by intros [? ?]].
    + intros idx Hidx. apply Htodo; [by rewrite Hpc|].
      unfold batch_end_of in Hidx. lia.
  - destruct (Hpool Hpc) as (Hlt & Hslots & Hdom & Hrest).
    split; cbn; try done; try (by rewrite Hpc).
    intros _. unfold batch_end_of; cbn. fold (batch_end s).
    split; [done|]. split; [|split; [|done]].
    + intros j Hj. specialize (Hslots j Hj).
      rewrite lookup_insert. case_decide as E; [|done].
      subst j. by rewrite Hf in Hslots.
    + intros j. rewrite lookup_insert. case_decide as E; [|by apply Hdom].
      subst j. intros _. apply Hdom. by rewrite Hf.
  - destruct (Hpool Hpc) as (Hlt & Hslots & Hdom & Hrest).
    split; cbn; try done; try (by rewrite Hpc).
    intros _. unfold batch_end_of; cbn. fold (batch_end s).
    split; [done|]. split; [|split; [|done]].
    + intros j Hj. specialize (Hslots j Hj).
      rewrite lookup_insert. case_decide as E; [|done].
      subst j. rewrite Hf in Hslots. destruct Hslots as [-> ?]. done.
    + intros j. rewrite lookup_insert. case_decide as E; [|by apply Hdom].
      subst j. intros _. apply Hdom. by rewrite Hf.
  - destruct (Hpool Hpc) as (Hlt & Hslots & Hdom & Hrest).
    rewrite on_completed_eq.
    assert (Hin : batch_start s <= idx < batch_end s) by (apply Hdom; by rewrite Hf).
    assert (Hr : r = run_task world idx (text idx)).
    { specialize (Hslots idx Hin). rewrite Hf in Hslots. by destruct Hslots. }
    split; cbn.
    + by rewrite length_insert.
    + done.
    + intros j Hj Hjt. rewrite list_lookup_insert_ne by lia. by apply Hdone.
    + by rewrite Hpc.
    + intros _. unfold batch_end_of; cbn. fold (batch_end s).
      split; [done|]. split; [|split].
      * intros j Hj. specialize (Hslots j Hj).
        rewrite lookup_insert. case_decide as E.
        -- subst j. cbn. rewrite list_lookup_insert_eq by (unfold batch_end_of in Hin; lia).
           by rewrite Hr.
        -- by rewrite list_lookup_insert_ne.
      * intros j. rewrite lookup_insert. case_decide as E; [|by apply Hdom].
        by subst j.
      * intros j Hj. rewrite list_lookup_insert_ne by lia. by apply Hrest.
    + by rewrite Hpc.
    + by rewrite Hpc.
    + by right.
  - destruct (Hpool Hpc) as (Hlt & Hslots & Hdom & Hrest).
    apply bool_decide_eq_true in Hc.
    split; cbn; try done.
    + destruct Hmult as [k Hk]. exists (S k). rewrite Hk. lia.
    + intros j Hj Hjt. destruct (decide (j < batch_start s)) as [|Hge]; [by apply Hdone|].
      assert (Hin : batch_start s <= j < batch_end s) by (unfold batch_end_of; lia).
      specialize (Hslots j Hin).
      destruct (future_to_idx s !! j) as [f|] eqn:Ef; [|done].
      specialize (Hc j f Ef). by destruct f.
    + intros _ j Hj. apply Hrest. unfold batch_end_of. lia.
  - split; cbn; try done.
    + intros _. apply Htodo. by rewrite Hpc.
    + intros final [= <-]. done.
    + intros _. apply Hidle. by rewrite Hpc.
Qed.

Lemma inv_run (acts : list action) (s s' : sched) :
  inv s -> run world questions acts s = Some s' -> inv s'.
Proof.
  revert s. induction acts as [|a acts IH]; intros s Hinv; simpl.
  - by intros [= <-].
  - destruct (exec world questions a s) as [s1|] eqn:E; [|done].
    apply IH. eapply inv_step; [done|]. by apply exec_step.
Qed.

Lemma inv_reachable (s : sched) :
  reachable world questions file0 s -> inv s.
Proof. intros [acts H]. eapply inv_run; [apply inv_init|done]. Qed.

(** *** Every schedule ends, and none gets stuck *)

Lemma pool_weight_seq (f : nat -> str) (lo len : nat) :
  pool_weight (list_to_map ((fun i => (i, Queued (f i))) <$> seq lo len)) = 3 * len.
Proof.
  unfold pool_weight. revert lo. induction len as [|len IH]; intros lo.
  - simpl. by rewrite map_fold_empty.
  - cbn [seq fmap list_fmap]. rewrite list_to_map_cons.
    rewrite map_fold_insert_L.
    + rewrite IH. simpl. lia.
    + intros. lia.
    + rewrite lookup_list_to_map_seq. case_decide; [lia|done].
Qed.

Lemma pool_weight_update (fs : gmap nat fstate) (idx : nat) (f f' : fstate) :
  fs !! idx = Some f ->
  pool_weight (<[idx := f']> fs) + weight f = pool_weight fs + weight f'.
Proof.
  intros Hf. unfold pool_weight.
  rewrite (map_fold_delete_L _ _ idx f fs) by (intros; lia || done).
  rewrite <- (insert_delete_eq fs).
  rewrite map_fold_insert_L; [lia| intros; lia |apply lookup_delete_eq].
Qed.

Lemma steps_left_step (s s' : sched) (a : action) :
  step s a s' -> steps_left questions s' < steps_left questions s.
Proof.
  intros [Hpc Hlt|idx t Hpc Hf Hr|idx t Hpc Hf|idx r Hpc Hf|Hpc Hc|Hpc Hge].
  - rewrite submit_batch_eq by done. unfold steps_left. rewrite Hpc. cbn.
    rewrite pool_weight_seq. unfold batch_end_of. cbn.
    pose proof BATCH_SIZE_pos. lia.
  - unfold steps_left. cbn. rewrite Hpc.
    pose proof (pool_weight_update _ idx _ (Running t) Hf) as Hw.
    unfold batch_end_of in *. cbn in *. lia.
  - unfold steps_left. cbn. rewrite Hpc.
    pose proof (pool_weight_update _ idx _ (Finished (run_task world idx t)) Hf) as Hw.
    unfold batch_end_of in *. cbn in *. lia.
  - rewrite on_completed_eq.
    unfold steps_left. cbn. rewrite Hpc.
    pose proof (pool_weight_update _ idx _ Collected Hf) as Hw.
    unfold batch_end_of in *. cbn in *. lia.
  - unfold steps_left. cbn. rewrite Hpc. unfold batch_end_of. lia.
  - unfold steps_left. cbn. rewrite Hpc. lia.
Qed.

Lemma steps_left_run (acts : list action) (s s' : sched) :
  run world questions acts s = Some s' ->
  steps_left questions s' + length acts <= steps_left questions s.
Proof.
  revert s. induction acts as [|a acts IH]; intros s; simpl.
  - intros [= <-]. lia.
  - destruct (exec world questions a s) as [s1|] eqn:E; [|done].
    intros H. apply IH in H. apply exec_step, steps_left_step in E. lia.
Qed.

Lemma pool_size (s : sched) :
  inv s -> at_pc s = InPool -> size (future_to_idx s) <= BATCH_SIZE.
Proof.
  intros Hinv Hpc. destruct (inv_pool _ _ _ _ Hinv Hpc) as (_ & _ & Hdom & _).
  rewrite <- (size_dom (D := gset nat)).
  transitivity (size (set_seq (C := gset nat) (batch_start s)
                        (batch_end s - batch_start s))).
  - apply subseteq_size. intros idx Hidx.
    apply elem_of_dom in Hidx. apply Hdom in Hidx.
    apply elem_of_set_seq. lia.
  - rewrite size_set_seq. unfold batch_end_of. lia.
Qed.

Lemma running_le_size (fs : gmap nat fstate) : running fs <= size fs.
Proof. apply map_subseteq_size, map_filter_subseteq. Qed.

Lemma running_lt_size (fs : gmap nat fstate) (idx : nat) (t : str) :
  fs !! idx = Some (Queued t) -> running fs < size fs.
Proof.
  intros Hf. apply map_subset_size. split; [apply map_filter_subseteq|].
  intros Hsub. pose proof (lookup_weaken _ _ _ _ Hf Hsub) as Hq.
  apply map_lookup_filter_Some in Hq as [_ Hq]. done.
Qed.

Lemma progress (s : sched) :
  inv s ->
  (exists final, at_pc s = Returned final) \/ exists a s', step s a s'.
Proof.
  intros Hinv. destruct (at_pc s) as [| |final] eqn:Hpc; [| |eauto]; right.
  - destruct (decide (batch_start s < N)).
    + eexists _, _. by apply step_submit.
    + eexists _, _. apply step_return; [done|lia].
  - destruct (all_collected (future_to_idx s)) eqn:Hc.
    + eexists _, _. by apply step_shutdown.
    + apply bool_decide_eq_false in Hc.
      apply map_not_Forall in Hc as (idx & f & Hf & Hnc); [|apply _].
      destruct f as [t|t|r|]; [| | |done].
      * eexists _, _. eapply step_start; [done..|].
        pose proof (running_lt_size _ _ _ Hf). pose proof (pool_size s Hinv Hpc). lia.
      * eexists _, _. by eapply step_finish.
      * eexists _, _. by eapply step_collect.
Qed.


(** *** What the trace records *)

Lemma submit_log_other (evs : list mevent) :
  Forall (fun e => forall i t, e ≠ MSubmit i t) evs -> submit_log evs = [].
Proof.
  unfold submit_log. induction 1 as [|e evs He _ IH]; [done|].
  cbn [omap list_omap]. destruct e as [i t| | | | | | | | | |]; try done.
  by destruct (He i t).
Qed.

Lemma submit_log_fmap (f : nat -> str) (l : list nat) :
  submit_log ((fun i => MSubmit i (f i)) <$> l) = (fun i => (i, f i)) <$> l.
Proof. unfold submit_log. induction l as [|i l IH]; [done|]. cbn. by f_equal. Qed.


Lemma barrier_other (tr evs : list mevent) (P : nat -> list mevent -> Prop) :
  Forall (fun e => is_start e = false) evs ->
  (forall k j, tr !! k = Some (MStart j) -> P j (take k tr)) ->
  forall k j, (tr ++ evs) !! k = Some (MStart j) -> P j (take k (tr ++ evs)).
Proof.
  intros Hevs Hold k j Hk. apply lookup_app_Some in Hk as [Hk|[_ Hk]].
  - pose proof (lookup_lt_Some _ _ _ Hk). rewrite take_app_le by lia. by apply Hold.
  - apply list_elem_of_lookup_2 in Hk. rewrite Forall_forall in Hevs.
    apply Hevs in Hk. done.
Qed.

Lemma chunk_of_pool (s : sched) (idx i : nat) :
  inv s -> at_pc s = InPool -> is_Some (future_to_idx s !! idx) ->
  i / BATCH_SIZE < idx / BATCH_SIZE -> i < batch_start s.
Proof.
  intros Hinv Hpc Hidx Hlt.
  destruct (inv_pool _ _ _ _ Hinv Hpc) as (_ & _ & Hdom & _).
  apply Hdom in Hidx. destruct (inv_mult _ _ _ _ Hinv) as [k Hk].
  unfold batch_end_of in Hidx. pose proof BATCH_SIZE_pos.
  assert (idx / BATCH_SIZE = k).
  { symmetry. apply (Nat.div_unique _ _ _ (idx - batch_start s)); lia. }
  subst k. destruct (decide (i < batch_start s)) as [|Hge]; [done|].
  assert (idx / BATCH_SIZE <= i / BATCH_SIZE); [|lia].
  apply Nat.div_le_lower_bound; lia.
Qed.

Lemma quiet_not_store (evs : list mevent) :
  Forall (fun e => is_quiet e = true) evs ->
  Forall (fun e => is_store_event e = false) evs.
Proof. intros H. eapply Forall_impl; [exact H|]. by intros []. Qed.

Lemma quiet_not_submit (evs : list mevent) :
  Forall (fun e => is_quiet e = true) evs ->
  Forall (fun e => forall i t, e ≠ MSubmit i t) evs.
Proof. intros H. eapply Forall_impl; [exact H|]. by intros []. Qed.

Lemma submit_log_app (tr evs : list mevent) :
  submit_log (tr ++ evs) = submit_log tr ++ submit_log evs.
Proof. apply omap_app. Qed.

Lemma inv_trace_init : inv_trace (init questions file0).
Proof.
  split; cbn; try done; first [apply store_ok_nil | intros; lia].
Qed.

(** The part of the trace invariant that only looks at the trace, after
    events that store nothing and submit nothing. *)
Lemma inv_trace_quiet (s s' : sched) (evs : list mevent) :
  inv_trace s ->
  Forall (fun e => is_quiet e = true) evs ->
  trace s' = trace s ++ evs -> answers s' = answers s -> file s' = file s ->
  submitted questions s' = submitted questions s ->
  store_ok questions (trace s')
  /\ replay questions (trace s') = answers s'
  /\ file_after file0 (trace s') = file s'
  /\ submit_log (trace s') = (fun i => (i, text i)) <$> seq 0 (submitted questions s').
Proof.
  intros [Hst Hre Hfi Hsu _ _ _] Hq -> -> -> ->.
  pose proof (quiet_not_store _ Hq). pose proof (quiet_not_submit _ Hq).
  split; [|split; [|split]].
  - by apply store_ok_other.
  - by rewrite replay_other.
  - by rewrite file_after_other.
  - rewrite submit_log_app, (submit_log_other evs), app_nil_r by done. done.
Qed.

Lemma completed_in_app (tr evs : list mevent) (idx : nat) :
  completed_in tr idx -> completed_in (tr ++ evs) idx.
Proof.
  intros (? & ? & Hexc). repeat split; try (apply elem_of_app; by left).
  intros exc Hr. apply elem_of_app; left. by apply Hexc.
Qed.

Local Abbreviation barrier_at := (fun j pre =>
  forall i, i < N -> i / BATCH_SIZE < j / BATCH_SIZE -> completed_in pre i).

Lemma inv_trace_step (s s' : sched) (a : action) :
  inv s -> inv_trace s -> step s a s' -> inv_trace s'.
Proof.
  intros Hinv Htr Hstep.
  pose proof Htr as [Hst Hre Hfi Hsu Hdn Hpl Hba].
  destruct Hstep as [Hpc Hlt|idx t Hpc Hf Hr|idx t Hpc Hf|idx r Hpc Hf|Hpc Hc|Hpc Hge].
  - (* submit *)
    rewrite submit_batch_eq by done.
    set (evs := (fun i => MSubmit i (text i)) <$> _).
    assert (Hns : Forall (fun e => is_store_event e = false) evs)
      by (apply Forall_fmap, Forall_true; done).
    split; cbn [trace answers file at_pc batch_start future_to_idx].
    + by apply store_ok_other.
    + by rewrite replay_other.
    + by rewrite file_after_other.
    + rewrite submit_log_app, Hsu. unfold evs. rewrite submit_log_fmap.
      unfold submitted. rewrite Hpc. cbn. unfold batch_end_of. cbn.
      rewrite <- fmap_app. f_equal.
      replace (min (batch_start s) N) with (batch_start s) by lia.
      pose proof (seq_app (batch_start s)
                    (min (batch_start s + BATCH_SIZE) N - batch_start s) 0) as Hs.
      cbn in Hs. rewrite <- Hs. f_equal. lia.
    + intros j Hj Hjs. by apply completed_in_app, Hdn.
    + intros _ j. rewrite lookup_list_to_map_seq. split; [intros r|]; by case_decide.
    + apply (barrier_other _ _ barrier_at); [|done].
      apply Forall_fmap, Forall_true; done.
  - (* start *)
    destruct (inv_trace_quiet s (emit [MStart idx] (set_future idx (Running t) s))
                [MStart idx] Htr) as (? & ? & ? & ?);
      try solve [ done | by repeat constructor
                | unfold submitted, batch_end_of; by cbn ].
    split; try done; cbn [trace answers file at_pc batch_start future_to_idx
                          emit set_future].
    + intros j Hj Hjs. by apply completed_in_app, Hdn.
    + intros _ j. destruct (Hpl Hpc j) as [Hfin Hcol].
      rewrite lookup_insert. case_decide; [by split|].
      split.
      * intros r Hr'. apply elem_of_app; left. by eapply Hfin.
      * intros Hc'. by apply completed_in_app, Hcol.
    + intros k j Hk. apply lookup_app_Some in Hk as [Hk|[Hlen Hk]].
      * pose proof (lookup_lt_Some _ _ _ Hk). rewrite take_app_le by lia.
        by apply Hba.
      * destruct (k - length (trace s)) as [|n] eqn:Hn; [|by destruct n].
        injection Hk as <-. rewrite take_app_length' by lia.
        intros i Hi Hlt. apply Hdn; [done|].
        eapply chunk_of_pool; [done..| |done]. by rewrite Hf.
  - (* finish *)
    destruct (inv_trace_quiet s
                (emit [MFinish idx] (set_future idx (Finished (run_task world idx t)) s))
                [MFinish idx] Htr) as (? & ? & ? & ?);
      try solve [ done | by repeat constructor
                | unfold submitted, batch_end_of; by cbn ].
    split; try done; cbn [trace answers file at_pc batch_start future_to_idx
                          emit set_future].
    + intros j Hj Hjs. by apply completed_in_app, Hdn.
    + intros _ j. destruct (Hpl Hpc j) as [Hfin Hcol].
      rewrite lookup_insert. case_decide as E.
      * subst j. split; [|done]. intros _ _. apply elem_of_app; right.
        apply list_elem_of_here.
      * split.
        -- intros r Hr'. apply elem_of_app; left. by eapply Hfin.
        -- intros Hc'. by apply completed_in_app, Hcol.
    + apply (barrier_other _ _ barrier_at); [|done]. by repeat constructor.
  - (* collect *)
    destruct (inv_pool _ _ _ _ Hinv Hpc) as (_ & Hslots & Hdom & _).
    assert (Hin : batch_start s <= idx < batch_end s) by (apply Hdom; by rewrite Hf).
    assert (Hrun : r = run_task world idx (text idx)).
    { specialize (Hslots idx Hin). rewrite Hf in Hslots. by destruct Hslots. }
    rewrite on_completed_eq. cbn [answers set_future trace future_to_idx at_pc
                                   batch_start file].
    assert (Hel : Forall (fun e => is_quiet e = true) (exception_log idx r))
      by (destruct r; by repeat constructor).
    pose proof (quiet_not_store _ Hel) as Hel'.
    split; cbn [answers set_future trace future_to_idx at_pc batch_start file].
    + rewrite app_assoc. rewrite <- Hre.
      rewrite <- (replay_other questions (trace s) (exception_log idx r)) by done.
      apply store_ok_block. by apply store_ok_other.
    + rewrite app_assoc, replay_app, replay_other, Hre by done. done.
    + rewrite app_assoc, file_after_app. done.
    + rewrite app_assoc, !submit_log_app, Hsu.
      rewrite (submit_log_other (exception_log _ _)) by by apply quiet_not_submit.
      cbn. rewrite !app_nil_r. unfold submitted, batch_end_of. by cbn.
    + intros j Hj Hjs. by apply completed_in_app, Hdn.
    + intros _ j. destruct (Hpl Hpc j) as [Hfin Hcol].
      rewrite lookup_insert. case_decide as E.
      * subst j. split; [done|]. intros _. split; [|split].
        -- apply elem_of_app; left. by eapply Hfin.
        -- apply elem_of_app; right. apply elem_of_app; right.
           unfold expected. rewrite <- Hrun. apply list_elem_of_here.
        -- intros exc Hexc. apply elem_of_app; right. apply elem_of_app; left.
           rewrite Hrun, Hexc. apply list_elem_of_here.
      * split.
        -- intros r' Hr'. apply elem_of_app; left. by eapply Hfin.
        -- intros Hc'. by apply completed_in_app, Hcol.
    + apply (barrier_other _ _ barrier_at); [|done].
      apply Forall_app. split.
      * destruct r; by repeat constructor.
      * by repeat constructor.
  - (* shutdown *)
    destruct (inv_trace_quiet s (next_batch s) [MShutdown] Htr) as (? & ? & ? & ?);
      try solve [ done | by repeat constructor
                | unfold submitted; rewrite Hpc; cbn; unfold batch_end_of; lia ].
    split; try done; cbn [trace answers file at_pc batch_start future_to_idx
                          next_batch].
    + intros j Hj Hjs. apply completed_in_app.
      destruct (decide (j < batch_start s)) as [|Hge]; [by apply Hdn|].
      destruct (inv_pool _ _ _ _ Hinv Hpc) as (_ & Hslots & _ & _).
      assert (Hin : batch_start s <= j < batch_end s) by (unfold batch_end_of; lia).
      specialize (Hslots j Hin).
      apply bool_decide_eq_true in Hc.
      destruct (future_to_idx s !! j) as [f|] eqn:Ef; [|done].
      specialize (Hc j f Ef). destruct f; try done.
      by apply (Hpl Hpc j).
    + apply (barrier_other _ _ barrier_at); [|done]. by repeat constructor.
  - (* return *)
    split; try done; cbn [trace answers file at_pc batch_start future_to_idx set_pc].
    rewrite Hsu. unfold submitted. by rewrite Hpc.
Qed.

Lemma inv_trace_run (acts : list action) (s s' : sched) :
  inv s -> inv_trace s -> run world questions acts s = Some s' -> inv_trace s'.
Proof.
  revert s. induction acts as [|a acts IH]; intros s Hinv Htr; simpl.
  - by intros [= <-].
  - destruct (exec world questions a s) as [s1|] eqn:E; [|done].
    apply exec_step in E.
    apply IH; [by eapply inv_step|by eapply inv_trace_step].
Qed.

Lemma inv_trace_reachable (s : sched) :
  reachable world questions file0 s -> inv_trace s.
Proof.
  intros [acts H]. eapply inv_trace_run; [apply inv_init|apply inv_trace_init|done].
Qed.

Lemma run_app (acts1 acts2 : list action) (s : sched) :
  run world questions (acts1 ++ acts2) s
  = run world questions acts1 s ≫= run world questions acts2.
Proof.
  revert s. induction acts1 as [|a acts1 IH]; intros s; [done|]. simpl.
  by destruct (exec world questions a s).
Qed.

(** *** What a run returns *)

Lemma expected_lookup (i : nat) (q : question) :
  questions !! i = Some q ->
  expected world questions i = answer_of (run_task world i (get_input q)).
Proof. intros Hq. unfold expected, text_of. by rewrite Hq. Qed.

Lemma render_lookup (slots : list (option answer)) (i : nat) (a : answer) :
  slots !! i = Some (Some a) -> render slots !! i = Some a.
Proof. intros H. unfold render. by rewrite list_lookup_fmap, H. Qed.

Lemma returned_answers (s : sched) (final : list answer) :
  inv s -> at_pc s = Returned final ->
  length final = length questions
  /\ forall i q, questions !! i = Some q ->
       final !! i = Some (answer_of (run_task world i (get_input q))).
Proof.
  intros Hinv Hpc. destruct (inv_ret _ _ _ _ Hinv final Hpc) as [Hge ->].
  split.
  - unfold render. rewrite length_fmap. apply (inv_len _ _ _ _ Hinv).
  - intros i q Hq. pose proof (lookup_lt_Some _ _ _ Hq) as Hi.
    apply render_lookup. rewrite <- (expected_lookup i q Hq).
    apply (inv_done _ _ _ _ Hinv); unfold total in *; lia.
Qed.

Lemma pool_is_chunk (s : sched) (idx : nat) :
  inv s -> at_pc s = InPool ->
  is_Some (future_to_idx s !! idx)
  <-> idx < length questions
      /\ idx / BATCH_SIZE = batch_start s / BATCH_SIZE.
Proof.
  intros Hinv Hpc.
  destruct (inv_pool _ _ _ _ Hinv Hpc) as (Hlt & Hslots & Hdom & _).
  destruct (inv_mult _ _ _ _ Hinv) as [k Hk]. pose proof BATCH_SIZE_pos as HB.
  assert (Hq : batch_start s / BATCH_SIZE = k)
    by (rewrite Hk; apply Nat.div_mul; lia).
  unfold batch_end_of, total in *. split.
  - intros Hsome. apply Hdom in Hsome. split; [lia|]. rewrite Hq.
    symmetry. apply (Nat.div_unique _ _ _ (idx - batch_start s)); lia.
  - intros [Hi Hc]. rewrite Hq in Hc.
    pose proof (Nat.div_mod_eq idx BATCH_SIZE) as Hdm.
    pose proof (Nat.mod_upper_bound idx BATCH_SIZE) as Hm.
    assert (Hin : batch_start s <= idx < min (batch_start s + BATCH_SIZE) (length questions)) by nia.
    specialize (Hslots idx Hin).
    destruct (future_to_idx s !! idx); [eauto|done].
Qed.

Lemma pool_bounds (s : sched) :
  inv s ->
  size (future_to_idx s) <= BATCH_SIZE
  /\ running (future_to_idx s) <= BATCH_SIZE.
Proof.
  intros Hinv.
  assert (size (future_to_idx s) <= BATCH_SIZE).
  { destruct (at_pc s) eqn:Hpc; [|by apply pool_size|];
      rewrite (inv_idle _ _ _ _ Hinv), map_size_empty by (by rewrite Hpc); lia. }
  split; [done|]. pose proof (running_le_size (future_to_idx s)). lia.
Qed.

Lemma dump_overwrites (tr : list mevent) (k : nat) (doc : list answer) :
  store_ok questions tr -> tr !! k = Some (MDump doc) ->
  file_after file0 (take (S k) tr) = [doc].
Proof.
  intros Hst Hk. destruct (store_dump _ _ Hst k doc Hk) as (_ & _ & k' & -> & Hk').
  rewrite (take_S_r _ _ _ Hk), (take_S_r _ _ _ Hk'), <- app_assoc.
  by rewrite file_after_app.
Qed.

End SchedulerFacts.

(** ** The claims about the batch *)





(** C3: the questions are submitted in their original order, the pool of
    a batch holds exactly the questions of one chunk of [BATCH_SIZE], so
    at most [BATCH_SIZE] tasks are in flight, and when a task starts,
    every task of every earlier chunk is over and its slot written. *)
Theorem chunks_run_one_after_another
    (world : nat -> service) (questions : list question)
    (file0 : list (list answer)) (acts : list action) (s : sched) :
  run world questions acts (init questions file0) = Some s ->
  submit_log (trace s)
    = (fun i => (i, text_of questions i)) <$> seq 0 (submitted questions s)
  /\ (at_pc s = InPool -> forall idx,
        is_Some (future_to_idx s !! idx)
        <-> idx < length questions
            /\ idx / BATCH_SIZE = batch_start s / BATCH_SIZE)
  /\ size (future_to_idx s) <= BATCH_SIZE
  /\ running (future_to_idx s) <= BATCH_SIZE
  /\ (forall k j, trace s !! k = Some (MStart j) ->
        forall i, i < length questions ->
          i / BATCH_SIZE < j / BATCH_SIZE ->
          completed_in world questions (take k (trace s)) i).
Proof.
  intros Hrun.
  assert (Hreach : reachable world questions file0 s) by by exists acts.
  pose proof (inv_reachable _ _ _ _ Hreach) as Hinv.
  pose proof (inv_trace_reachable _ _ _ _ Hreach) as Htr.
  split; [apply (tr_submits _ _ _ _ Htr)|].
  split; [intros Hpc idx; by apply (pool_is_chunk world questions file0)|].
  destruct (pool_bounds world questions file0 s Hinv) as [? ?].
  split; [done|]. split; [done|].
  apply (tr_barrier _ _ _ _ Htr).
Qed.

Lemma chunks_run_one_after_another_witness :
  exists s,
    run twelve_world twelve_questions (parallel_batch 0 10 ++ [ASubmit; AStart 10])
      (init twelve_questions []) = Some s
    /\ trace s !! 93 = Some (MStart 10)
    /\ completed_in twelve_world twelve_questions (take 93 (trace s)) 3.
Proof.
  eexists. split; [vm_compute; reflexivity|]. split; [reflexivity|].
  eapply (proj2 (proj2 (proj2 (proj2
            (chunks_run_one_after_another twelve_world twelve_questions []
               (parallel_batch 0 10 ++ [ASubmit; AStart 10]) _
               ltac:(vm_compute; reflexivity))))) 93 10 eq_refl 3).
  - vm_compute. lia.
  - vm_compute. lia.
Defined.




(** C7: every document dumped to the snapshot file renders the whole
    answer set of that moment: as many entries as questions, in order, a
    pending slot as the empty answer; the dump follows a truncation, so
    the file then holds that document and nothing else. *)
Theorem snapshot_is_complete
    (world : nat -> service) (questions : list question)
    (file0 : list (list answer)) (acts : list action) (s : sched) :
  run world questions acts (init questions file0) = Some s ->
  (forall k doc, trace s !! k = Some (MDump doc) ->
     doc = render (replay questions (take k (trace s)))
     /\ length doc = length questions
     /\ (forall i, i < length questions ->
           exists a, doc !! i = Some a
             /\ (replay questions (take k (trace s)) !! i = Some None ->
                 a = {| output := [] |})
             /\ (forall b, replay questions (take k (trace s)) !! i = Some (Some b) ->
                 a = b))
     /\ file_after file0 (take (S k) (trace s)) = [doc])
  /\ (file s = file0 \/ file s = [render (answers s)])
  /\ length (render (answers s)) = length questions.
Proof.
  intros Hrun.
  assert (Hreach : reachable world questions file0 s) by by exists acts.
  pose proof (inv_reachable _ _ _ _ Hreach) as Hinv.
  pose proof (inv_trace_reachable _ _ _ _ Hreach) as Htr.
  pose proof (tr_store _ _ _ _ Htr) as Hst.
  split; [|split].
  - intros k doc Hk. destruct (store_dump _ _ Hst k doc Hk) as (_ & Hdoc & _).
    split; [done|]. split; [|split].
    + rewrite Hdoc. unfold render. by rewrite length_fmap, (replay_length questions).
    + intros i Hi. rewrite Hdoc. unfold render. rewrite list_lookup_fmap.
      destruct (lookup_lt_is_Some_2 (replay questions (take k (trace s))) i)
        as [slot Hslot]; [by rewrite (replay_length questions)|].
      rewrite Hslot. eexists. split; [done|]. split.
      * by intros [= ->].
      * by intros b [= ->].
    + eapply dump_overwrites; [exact Hst|exact Hk].
  - apply (inv_file _ _ _ _ Hinv).
  - unfold render. rewrite length_fmap. apply (inv_len _ _ _ _ Hinv).
Qed.

Lemma snapshot_is_complete_witness :
  exists s,
    run demo_world demo_questions [ASubmit; AStart 1; AFinish 1; ACollect 1]
      (init demo_questions [[]; []]) = Some s
    /\ file s = [[ {| output := [] |}; {| output := [] |}; {| output := [] |} ]].
Proof.
  eexists. split; [vm_compute; reflexivity|].
  destruct (proj1 (proj2 (snapshot_is_complete demo_world demo_questions [[]; []]
                     [ASubmit; AStart 1; AFinish 1; ACollect 1] _
                     ltac:(vm_compute; reflexivity)))) as [Hf|Hf].
  - vm_compute in Hf. discriminate.
  - exact Hf.
Defined.



(** * Further properties *)

(** ** The retry wrapper, attempt by attempt *)

Section RetryFacts.

Variable post : service.

Lemma ask_solver_raw (q : str) (st : tstate) :
  ask_solver post q st
  = (Ok (solver_raw (post (calls st) (the_request q))), after_post q st).
Proof. apply ask_solver_run. Qed.

(** One turn of the loop, by what the attempt yields. *)
Lemma run_agent_loop_cons (q : str) (m a : Z) (rest : list Z) (st : tstate) :
  run_agent_loop post q m (a :: rest) st
  = match attempt_yield post q (calls st) with
    | Raise e => (Raise e, after_post q st)
    | Ok answer =>
        if opt_truthy answer
        then (Ok (strip (default [] answer)), after_post q st)
        else run_agent_loop post q m rest
               {| calls := S (calls st);
                  log := log st ++ failed_attempt q m a |}
    end.
Proof.
  cbn [run_agent_loop]. unfold mbind at 1. unfold task_bind at 1.
  rewrite ask_solver_raw. unfold mbind at 1. unfold task_bind at 1, lift.
  unfold attempt_yield.
  destruct (extract_answer _) as [answer|e]; [|done].
  destruct (opt_truthy answer); [done|].
  unfold mbind at 1. unfold task_bind at 1, failed_attempt, after_post.
  destruct (a <? m - 1)%Z; cbn [time_sleep mret task_ret calls log];
    by rewrite <- ?app_assoc.
Qed.

(** Attempts that yield nothing usable are passed over, each leaving its
    request and its pause in the log. *)
Lemma run_agent_loop_skip (q : str) (m : Z) (pre rest : list Z) (st : tstate) :
  (forall j, j < length pre ->
     exists o, attempt_yield post q (calls st + j) = Ok o /\ opt_truthy o = false) ->
  run_agent_loop post q m (pre ++ rest) st
  = run_agent_loop post q m rest
      {| calls := calls st + length pre;
         log := log st ++ flat_map (failed_attempt q m) pre |}.
Proof.
  revert st. induction pre as [|a pre IH]; intros st Habs.
  - cbn. destruct st. by rewrite Nat.add_0_r, app_nil_r.
  - cbn [app]. rewrite run_agent_loop_cons.
    destruct (Habs 0) as (o & Ho & Hf); [simpl; lia|].
    rewrite Nat.add_0_r in Ho. rewrite Ho, Hf.
    rewrite IH.
    + cbn [calls log length flat_map]. rewrite <- app_assoc.
      do 2 f_equal. lia.
    + intros j Hj. cbn [calls]. destruct (Habs (S j)) as (o' & Ho' & Hf');
        [simpl; lia|].
      exists o'. split; [|done]. rewrite <- Ho'. f_equal. lia.
Qed.

Lemma py_range_split (m : Z) (k : nat) :
  (Z.of_nat k < m)%Z ->
  py_range m
  = map Z.of_nat (seq 0 k) ++ Z.of_nat k
      :: map Z.of_nat (seq (S k) (Z.to_nat m - S k)).
Proof.
  intros Hk. unfold py_range.
  replace (Z.to_nat m) with (k + S (Z.to_nat m - S k)) at 1 by lia.
  rewrite seq_app, map_app. done.
Qed.

Lemma sleeps_failed_early (q : str) (m : Z) (n a : nat) :
  (Z.of_nat (a + n) < m)%Z ->
  sleeps (flat_map (failed_attempt q m) (map Z.of_nat (seq a n)))
  = map Z.of_nat (seq (S a) n).
Proof.
  revert a. induction n as [|n IH]; intros a Hm; [done|].
  cbn [seq map flat_map]. unfold sleeps in *.
  rewrite flat_map_app, (IH (S a)) by lia. unfold failed_attempt.
  destruct (Z.ltb_spec (Z.of_nat a) (m - 1)); [|lia].
  cbn [flat_map app]. f_equal. lia.
Qed.

(** The state of a task after [k] attempts that yielded nothing usable. *)
Lemma run_agent_upto (q : str) (m : Z) (k : nat) :
  (Z.of_nat k < m)%Z ->
  (forall j, j < k ->
     exists o, attempt_yield post q j = Ok o /\ opt_truthy o = false) ->
  run_agent post q m tstate0
  = run_agent_loop post q m
      (Z.of_nat k :: map Z.of_nat (seq (S k) (Z.to_nat m - S k)))
      {| calls := k;
         log := flat_map (failed_attempt q m) (map Z.of_nat (seq 0 k)) |}.
Proof.
  intros Hk Habs. unfold run_agent. rewrite (py_range_split m k Hk).
  rewrite run_agent_loop_skip.
  - cbn [calls log tstate0 app]. by rewrite length_map, length_seq.
  - intros j Hj. rewrite length_map, length_seq in Hj. by apply Habs.
Qed.

End RetryFacts.

(** X1: when the first [k] attempts yield nothing usable and the next one
    yields a non-empty answer, [run_agent] returns that answer stripped,
    after [k + 1] requests and pauses of 1, ..., [k] seconds; it makes no
    further request. *)
Theorem run_agent_returns_first_answer
    (post : service) (q : str) (max_retries : Z) (k : nat) (c : char) (a : str) :
  (Z.of_nat k < max_retries)%Z ->
  (forall j, j < k ->
     exists o, attempt_yield post q j = Ok o /\ opt_truthy o = false) ->
  attempt_yield post q k = Ok (Some (c :: a)) ->
  let out := run_agent post q max_retries tstate0 in
  out.1 = Ok (strip (c :: a))
  /\ calls out.2 = S k
  /\ posts (log out.2) = replicate (S k) (the_request q)
  /\ sleeps (log out.2) = map Z.of_nat (seq 1 k).
Proof.
  intros Hk Habs Hyes out. subst out.
  rewrite (run_agent_upto post q max_retries k Hk Habs), run_agent_loop_cons.
  cbn [calls]. rewrite Hyes. cbn [opt_truthy fst snd after_post calls log].
  repeat split.
  - unfold posts. rewrite flat_map_app. fold (posts (flat_map (failed_attempt q
      max_retries) (map Z.of_nat (seq 0 k)))).
    rewrite posts_failed, length_map, length_seq. cbn.
    by rewrite <- replicate_cons_app.
  - unfold sleeps. rewrite flat_map_app. fold (sleeps (flat_map (failed_attempt q
      max_retries) (map Z.of_nat (seq 0 k)))).
    rewrite sleeps_failed_early by lia. cbn. by rewrite app_nil_r.
Qed.

Lemma run_agent_returns_first_answer_witness :
  (run_agent (demo_world 2) [] 3 tstate0).1 = Ok (lit "7")
  /\ calls (run_agent (demo_world 2) [] 3 tstate0).2 = 3.
Proof.
  assert (Habs : forall j, j < 2 ->
            exists o, attempt_yield (demo_world 2) [] j = Ok o
                      /\ opt_truthy o = false).
  { intros j Hj. exists None. destruct j as [|[|j]]; [done|done|lia]. }
  destruct (run_agent_returns_first_answer (demo_world 2) [] 3 2 55%N []
              ltac:(lia) Habs eq_refl) as (Hr & Hc & _).
  split; [exact Hr | exact Hc].
Defined.

(** X2: an exception of a solve attempt is not retried: when the first
    [k] attempts yield nothing usable and the next one raises, [run_agent]
    raises the same exception after [k + 1] requests. *)
Theorem run_agent_does_not_retry_exception
    (post : service) (q : str) (max_retries : Z) (k : nat) (e : exn) :
  (Z.of_nat k < max_retries)%Z ->
  (forall j, j < k ->
     exists o, attempt_yield post q j = Ok o /\ opt_truthy o = false) ->
  attempt_yield post q k = Raise e ->
  let out := run_agent post q max_retries tstate0 in
  out.1 = Raise e
  /\ calls out.2 = S k
  /\ sleeps (log out.2) = map Z.of_nat (seq 1 k).
Proof.
  intros Hk Habs Hno out. subst out.
  rewrite (run_agent_upto post q max_retries k Hk Habs), run_agent_loop_cons.
  cbn [calls]. rewrite Hno. cbn [fst snd after_post calls log].
  repeat split.
  unfold sleeps. rewrite flat_map_app. fold (sleeps (flat_map (failed_attempt q
    max_retries) (map Z.of_nat (seq 0 k)))).
  rewrite sleeps_failed_early by lia. cbn. by rewrite app_nil_r.
Qed.

Lemma run_agent_does_not_retry_exception_witness :
  (run_agent (demo_world 1) (lit "five?") 3 tstate0).1 = Raise TypeError
  /\ calls (run_agent (demo_world 1) (lit "five?") 3 tstate0).2 = 1.
Proof.
  destruct (run_agent_does_not_retry_exception (demo_world 1) (lit "five?") 3 0
              TypeError ltac:(lia) ltac:(intros; lia) eq_refl) as (Hr & Hc & _).
  split; [exact Hr | exact Hc].
Defined.

Section EffortFacts.

Variable post : service.

(** Whatever the service does, a loop over [n] attempts numbered from [a]
    sends between one and [n] requests (none when [n] is zero), all of
    them the same, and pauses after each of them but the last. *)
Lemma run_agent_loop_effort (q : str) (m : Z) (n a : nat) (st : tstate) :
  Z.of_nat (a + n) = Z.max 0 m ->
  exists c l,
    c <= n /\ (0 < n -> 0 < c)
    /\ calls (run_agent_loop post q m (map Z.of_nat (seq a n)) st).2 = calls st + c
    /\ log (run_agent_loop post q m (map Z.of_nat (seq a n)) st).2 = log st ++ l
    /\ posts l = replicate c (the_request q)
    /\ sleeps l = map Z.of_nat (seq (S a) (c - 1)).
Proof.
  revert a st. induction n as [|n IH]; intros a st Hm.
  - exists 0, []. cbn. rewrite Nat.add_0_r, app_nil_r. repeat split; lia.
  - cbn [seq map]. rewrite run_agent_loop_cons.
    destruct (attempt_yield post q (calls st)) as [answer|e].
    + destruct (opt_truthy answer).
      * exists 1, [EvPost (the_request q)]. cbn. repeat split; lia.
      * destruct (IH (S a) {| calls := S (calls st);
                              log := log st ++ failed_attempt q m (Z.of_nat a) |})
          as (c & l & Hc & Hpos & Hcalls & Hlog & Hposts & Hsleeps); [lia|].
        exists (S c), (failed_attempt q m (Z.of_nat a) ++ l).
        rewrite Hcalls, Hlog. cbn [calls log].
        split; [lia|]. split; [lia|]. split; [lia|].
        split; [by rewrite app_assoc|]. split.
        -- unfold posts in *. rewrite flat_map_app, Hposts. unfold failed_attempt.
           by destruct (Z.of_nat a <? m - 1)%Z.
        -- unfold sleeps in *. rewrite flat_map_app, Hsleeps. unfold failed_attempt.
           destruct (Z.ltb_spec (Z.of_nat a) (m - 1)) as [Hlt|Hge].
           ++ assert (0 < c) by (apply Hpos; lia).
              replace (S c - 1) with (S (c - 1)) by lia.
              cbn [flat_map app seq map]. f_equal. lia.
           ++ assert (n = 0) as -> by lia.
              assert (c = 0) as -> by lia. done.
    + exists 1, [EvPost (the_request q)]. cbn. repeat split; lia.
Qed.

(** If the content the service sends is always text, or something false,
    no attempt raises. *)
Lemma attempt_yield_text (q : str) (k : nat) :
  (forall t, response_text (post k (the_request q)) = Ok t ->
     (exists s, t = JStr s) \/ truthy t = false) ->
  exists o, attempt_yield post q k = Ok o.
Proof.
  intros Htext. unfold attempt_yield, solver_raw.
  destruct (response_text (post k (the_request q))) as [t|e]; [|by eexists].
  destruct (Htext t eq_refl) as [[s ->]|Hf].
  - unfold py_or. destruct (truthy (JStr s)); rewrite extract_answer_str; eauto.
  - unfold py_or. rewrite Hf. by eexists.
Qed.

Lemma run_agent_loop_text (q : str) (m : Z) (attempts : list Z) (st : tstate) :
  (forall k, exists o, attempt_yield post q k = Ok o) ->
  exists v, (run_agent_loop post q m attempts st).1 = Ok v.
Proof.
  intros Hok. revert st. induction attempts as [|a rest IH]; intros st.
  - by exists [].
  - rewrite run_agent_loop_cons. destruct (Hok (calls st)) as [o ->].
    destruct (opt_truthy o); [by eexists|apply IH].
Qed.

End EffortFacts.

(** X3: whatever the service answers, [run_agent] sends at most
    [max_retries] requests, every one of them the request built from the
    question, and its pauses are 1, 2, ... seconds, one after each request
    but the last; with [max_retries] zero or negative it sends nothing and
    returns the empty string. *)
Theorem run_agent_effort_is_bounded (post : service) (q : str) (max_retries : Z) :
  let out := run_agent post q max_retries tstate0 in
  calls out.2 <= Z.to_nat max_retries
  /\ posts (log out.2) = replicate (calls out.2) (the_request q)
  /\ sleeps (log out.2) = map Z.of_nat (seq 1 (calls out.2 - 1))
  /\ ((max_retries <= 0)%Z -> out = (Ok [], tstate0)).
Proof.
  intros out. subst out. unfold run_agent, py_range.
  destruct (run_agent_loop_effort post q max_retries (Z.to_nat max_retries) 0 tstate0)
    as (c & l & Hc & _ & Hcalls & Hlog & Hposts & Hsleeps); [lia|].
  rewrite Hcalls, Hlog. cbn [calls log tstate0 app Nat.add].
  repeat split; try done.
  intros Hle. replace (Z.to_nat max_retries) with 0 by lia. done.
Qed.

(** X4: if the content field of every reply is text, or false in Python's
    sense, [run_agent] returns and does not raise. *)
Theorem run_agent_returns_on_text
    (post : service) (q : str) (max_retries : Z) :
  (forall k t, response_text (post k (the_request q)) = Ok t ->
     (exists s, t = JStr s) \/ truthy t = false) ->
  exists v, (run_agent post q max_retries tstate0).1 = Ok v.
Proof.
  intros Htext. apply run_agent_loop_text.
  intros k. apply attempt_yield_text. apply Htext.
Qed.

Lemma run_agent_returns_on_text_witness :
  exists v, (run_agent (twelve_world 0) (lit "1+1?") 3 tstate0).1 = Ok v.
Proof.
  apply (run_agent_returns_on_text (twelve_world 0) (lit "1+1?") 3).
  intros k t Ht. left. vm_compute in Ht. injection Ht as <-. by eexists.
Defined.

(** ** The solver client, reply by reply *)

Section ReplyFacts.

Variable post : service.

Lemma call_model_run (msgs : list message) (st : tstate) :
  call_model_chat_completions post msgs st
  = (Ok (completion_of (post (calls st) (chat_request msgs))),
     {| calls := S (calls st); log := log st ++ [EvPost (chat_request msgs)] |}).
Proof.
  unfold call_model_chat_completions, completion_of, try_except.
  unfold mbind at 1. unfold task_bind, requests_post.
  destruct (post (calls st) (chat_request msgs)) as [resp|e]; [|done].
  destruct (status_code resp =? 200)%Z; [|done].
  unfold mbind at 1. unfold task_bind, lift.
  destruct (resp_json resp) as [data|e]; [|done].
  cbn [mbind res_bind]. unfold mbind at 1. unfold task_bind.
  by destruct (choice_content data).
Qed.

Lemma drop_while_sublist (p : char -> bool) (s : str) :
  drop_while p s `sublist_of` s.
Proof.
  destruct (drop_while_suffix p s) as [pre Hpre].
  rewrite Hpre at 2. by apply sublist_inserts_l.
Qed.

Lemma rstrip_by_sublist (p : char -> bool) (s : str) :
  rstrip_by p s `sublist_of` s.
Proof.
  unfold rstrip_by. destruct (drop_while_suffix p (rev s)) as [pre Hpre].
  assert (Hs : s = rev (drop_while p (rev s)) ++ rev pre).
  { rewrite <- rev_app_distr, <- Hpre. by rewrite rev_involutive. }
  rewrite Hs at 2. by apply sublist_inserts_r.
Qed.

Lemma cleanup_shape (after a : str) :
  cleanup after = Some a ->
  a ≠ [] /\ (32%N ∉ a) /\ a `sublist_of` after.
Proof.
  unfold cleanup. cbv zeta. case_bool_decide as Hne; [done|].
  intros [= <-]. split; [done|]. split.
  - unfold remove_char. intros Hin. apply list_elem_of_filter in Hin as [Hneq _].
    by apply Hneq.
  - unfold remove_char. etransitivity; [apply sublist_filter|].
    etransitivity; [apply drop_while_sublist|].
    etransitivity; [apply rstrip_by_sublist|].
    unfold strip.
    etransitivity; [apply drop_while_sublist|apply rstrip_by_sublist].
Qed.

End ReplyFacts.

(** X5: what [extract_answer] extracts from a text is never empty, holds
    no space, and is made of characters of the text after the last
    occurrence of the marker, in their order. *)
Theorem extract_answer_output_shape (raw_text a : str) :
  extract_answer (JStr raw_text) = Ok (Some a) ->
  a ≠ [] /\ (32%N ∉ a)
  /\ exists before after,
       raw_text = before ++ MARKER ++ after
       /\ contains MARKER after = false
       /\ a `sublist_of` after.
Proof.
  rewrite extract_answer_str.
  destruct (rfind MARKER raw_text) as [i|] eqn:Hi; [|done].
  intros [= Hc]. destruct (cleanup_shape _ _ Hc) as (Hne & Hsp & Hsub).
  split; [done|]. split; [done|].
  exists (take i raw_text), (drop (i + length MARKER) raw_text).
  split; [by apply rfind_is_occurrence|]. split; [|done].
  destruct (contains MARKER (drop (i + length MARKER) raw_text)) eqn:Ec; [|done].
  apply contains_rfind in Ec as [j Hj]. apply rfind_some_occurs in Hj.
  rewrite drop_drop in Hj.
  assert (Hlen : i + length MARKER + j <= length raw_text).
  { destruct (decide (i + length MARKER + j <= length raw_text)); [done|].
    rewrite drop_ge in Hj by lia. done. }
  rewrite (rfind_some_last MARKER raw_text i (i + length MARKER + j) Hi) in Hj;
    [done| |done].
  cbn. lia.
Qed.

Lemma extract_answer_output_shape_witness :
  exists before after,
    lit "so FINAL ANSWER: +4 2." = before ++ MARKER ++ after
    /\ contains MARKER after = false
    /\ lit "42" `sublist_of` after.
Proof.
  exact (proj2 (proj2 (extract_answer_output_shape
                         (lit "so FINAL ANSWER: +4 2.") (lit "42") eq_refl))).
Defined.

(** X6: [extract_answer] raises on exactly these values: [True] and a
    number other than zero ([TypeError], from the [in] test), and a list
    holding the marker or a dict with the marker as a key
    ([AttributeError], from [split]).  On every other value it returns. *)
Theorem extract_answer_raises_iff (v : json) (e : exn) :
  extract_answer v = Raise e
  <-> (e = TypeError /\ (v = JBool true \/ exists z, z ≠ 0%Z /\ v = JNum z))
      \/ (e = AttributeError
          /\ ((exists items, v = JArr items /\ JStr MARKER ∈ items)
              \/ exists fields, v = JObj fields /\ is_Some (assoc MARKER fields))).
Proof.
  assert (Hmem : forall items,
            existsb (is_str MARKER) items = true <-> JStr MARKER ∈ items).
  { intros items. rewrite existsb_exists. split.
    - intros (x & Hin & Hx). apply list_elem_of_In in Hin.
      destruct x; try done. unfold is_str in Hx. apply bool_decide_eq_true in Hx.
      by rewrite Hx.
    - intros Hin. exists (JStr MARKER). split; [by apply list_elem_of_In|].
      unfold is_str. by apply bool_decide_eq_true. }
  unfold extract_answer.
  destruct v as [|b|z|s|items|fields]; cbn [truthy negb py_in py_split mbind res_bind].
  - split; [done|]. intros [[_ [?|(? & _ & ?)]]|[_ [(? & ? & _)|(? & ? & _)]]]; done.
  - destruct b; cbn [negb mbind res_bind].
    + split; [intros [= <-]; left; eauto|].
      intros [[-> _]|[_ [(? & ? & _)|(? & ? & _)]]]; done.
    + split; [done|]. intros [[_ [?|(? & _ & ?)]]|[_ [(? & ? & _)|(? & ? & _)]]]; done.
  - destruct (Z.eqb_spec z 0) as [->|Hz]; cbn [negb mbind res_bind].
    + split; [done|].
      intros [[_ [?|(z' & Hz' & [= <-])]]|[_ [(? & ? & _)|(? & ? & _)]]]; done.
    + split; [intros [= <-]; left; eauto|].
      intros [[-> _]|[_ [(? & ? & _)|(? & ? & _)]]]; done.
  - split; [|intros [[_ [?|(? & _ & ?)]]|[_ [(? & ? & _)|(? & ? & _)]]]; done].
    destruct (negb (negb (bool_decide (s = [])))); [done|].
    cbn [mbind res_bind]. by destruct (negb (contains MARKER s)).
  - destruct items as [|x items].
    + split; [done|].
      intros [[_ [?|(? & _ & ?)]]|[_ [(l & [= <-] & Hin)|(? & ? & _)]]]; try done.
      by apply elem_of_nil in Hin.
    + cbn [negb].
      destruct (existsb (is_str MARKER) (x :: items)) eqn:Ex; cbn [negb mbind res_bind].
      * split.
        -- intros [= <-]. right. split; [done|left].
           eexists. split; [done|]. by apply Hmem.
        -- intros [[_ [?|(? & _ & ?)]]|[-> _]]; done.
      * split; [done|].
        intros [[_ [?|(? & _ & ?)]]|[_ [(l & [= <-] & Hin)|(? & ? & _)]]]; try done.
        apply Hmem in Hin. congruence.
  - destruct fields as [|x fields].
    + split; [done|].
      intros [[_ [?|(? & _ & ?)]]|[_ [(? & ? & _)|(l & [= <-] & [? Hin])]]]; done.
    + cbn [negb]. case_bool_decide as Hk; cbn [negb mbind res_bind].
      * split; [intros [= <-]; right; split; [done|right; eauto]|].
        intros [[_ [?|(? & _ & ?)]]|[-> _]]; done.
      * split; [done|].
        intros [[_ [?|(? & _ & ?)]]|[_ [(? & ? & _)|(l & [= <-] & Hin)]]]; done.
Qed.

(** X7: on a 200 reply whose body has a list under [choices], a dict
    under [message] in its first element and a text under [content] there,
    [ask_solver] returns that text, whatever else the body holds; it sends
    one request and does not raise. *)
Theorem ask_solver_reads_content
    (post : service) (q : str) (st : tstate)
    (fields first msg : list (str * json)) (others : list json) (c : str) :
  post (calls st) (the_request q)
    = Ok {| status_code := 200; resp_json := Ok (JObj fields) |} ->
  assoc (lit "choices") fields = Some (JArr (JObj first :: others)) ->
  assoc (lit "message") first = Some (JObj msg) ->
  assoc (lit "content") msg = Some (JStr c) ->
  ask_solver post q st = (Ok (JStr c), after_post q st).
Proof.
  intros Hpost Hch Hmsg Hcont. rewrite ask_solver_run, Hpost.
  unfold response_text, choice_content, py_get.
  cbn [mbind res_bind status_code resp_json Z.eqb Pos.eqb].
  rewrite Hch. cbn [default from_option id py_index0 mbind res_bind].
  rewrite Hmsg. cbn [default from_option id mbind res_bind].
  rewrite Hcont. cbn [default from_option id].
  by destruct c.
Qed.

Lemma ask_solver_reads_content_witness :
  ask_solver (demo_world 0) (lit "6*7?") tstate0
  = (Ok (JStr (lit "6 times 7. FINAL ANSWER: 42.")), after_post (lit "6*7?") tstate0).
Proof.
  exact (ask_solver_reads_content (demo_world 0) (lit "6*7?") tstate0
           _ _ _ [] _ eq_refl eq_refl eq_refl eq_refl).
Defined.

(** X8: the defaults of the [get] chain: on a 200 reply whose body is a
    dict without [choices], or whose first choice is a dict without
    [message], or whose message is a dict without [content],
    [call_model_chat_completions] reports success with the empty string as
    text. *)
Theorem call_model_defaults_to_empty_text
    (post : service) (msgs : list message) (st : tstate)
    (fields : list (str * json)) :
  post (calls st) (chat_request msgs)
    = Ok {| status_code := 200; resp_json := Ok (JObj fields) |} ->
  assoc (lit "choices") fields = None
  \/ (exists first others,
        assoc (lit "choices") fields = Some (JArr (JObj first :: others))
        /\ (assoc (lit "message") first = None
            \/ exists msg, assoc (lit "message") first = Some (JObj msg)
                           /\ assoc (lit "content") msg = None)) ->
  (call_model_chat_completions post msgs st).1
  = Ok {| ok := true; text := JStr [] |}.
Proof.
  intros Hpost Hcase. rewrite call_model_run, Hpost.
  unfold completion_of, choice_content, py_get.
  cbn [fst mbind res_bind status_code resp_json Z.eqb Pos.eqb].
  destruct Hcase as [Hch|(first & others & Hch & [Hmsg|(msg & Hmsg & Hcont)])];
    rewrite Hch; cbn [default from_option id py_index0 mbind res_bind];
    [done| |]; rewrite Hmsg; cbn [default from_option id mbind res_bind];
    [done|]. by rewrite Hcont.
Qed.

Lemma call_model_defaults_to_empty_text_witness :
  (call_model_chat_completions
     (fun _ _ => Ok {| status_code := 200; resp_json := Ok (JObj []) |})
     (solver_messages []) tstate0).1
  = Ok {| ok := true; text := JStr [] |}.
Proof.
  apply (call_model_defaults_to_empty_text _ _ _ []); [reflexivity|].
  left. reflexivity.
Defined.

(** X9: [call_model_chat_completions] never raises and sends exactly one
    request; it reports success exactly when the status is 200 and the
    body could be read down to the content field, and then its text is
    that field; otherwise its text is [None]. *)
Theorem call_model_reports_outcome
    (post : service) (msgs : list message) (st : tstate) :
  exists c,
    call_model_chat_completions post msgs st
    = (Ok c, {| calls := S (calls st);
                log := log st ++ [EvPost (chat_request msgs)] |})
    /\ (ok c = true
        <-> exists resp t,
              post (calls st) (chat_request msgs) = Ok resp
              /\ status_code resp = 200%Z
              /\ resp_json resp ≫= choice_content = Ok t
              /\ text c = t)
    /\ (ok c = false -> text c = JNull).
Proof.
  eexists. split; [apply call_model_run|]. unfold completion_of.
  destruct (post (calls st) (chat_request msgs)) as [resp|e].
  - destruct (Z.eqb_spec (status_code resp) 200) as [Hs|Hs].
    + destruct (resp_json resp ≫= choice_content) as [t|e] eqn:Ht; cbn.
      * split; [|done]. split; [eauto 10|done].
      * split; [|done]. split; [done|]. intros (r & t & [= <-] & _ & Ht' & _).
        congruence.
    + cbn. split; [|done]. split; [done|]. intros (r & t & [= <-] & ? & _). done.
  - cbn. split; [|done]. split; [done|]. by intros (r & t & ? & _).
Qed.

(** ** The batch, count by count *)

Section CountFacts.

Variable world : nat -> service.
Variable questions : list question.
Variable file0 : list (list answer).

Local Abbreviation N := (total questions).
Local Abbreviation inv_more := (inv_more world questions file0).

Lemma filled_replicate (n : nat) : filled (replicate n None) = 0.
Proof.
  unfold filled. induction n as [|n IH]; [done|].
  cbn [replicate]. by rewrite filter_cons_False.
Qed.

Lemma filled_insert (slots : list (option answer)) (idx : nat) (a : answer) :
  slots !! idx = Some None ->
  filled (<[idx := Some a]> slots) = S (filled slots).
Proof.
  unfold filled. revert idx. induction slots as [|x slots IH]; intros idx; [done|].
  destruct idx as [|idx]; cbn [lookup list_lookup insert list_insert].
  - intros [= ->]. rewrite filter_cons_True, filter_cons_False by done. done.
  - intros Hidx. rewrite !filter_cons. destruct (decide (is_filled x = true));
      cbn [length]; by rewrite IH.
Qed.

Lemma filled_pos (slots : list (option answer)) (idx : nat) (a : answer) :
  slots !! idx = Some (Some a) -> 0 < filled slots.
Proof.
  unfold filled. intros Hidx.
  assert (Hin : Some a ∈ filter (fun x => is_filled x = true) slots).
  { apply list_elem_of_filter. split; [done|]. by eapply list_elem_of_lookup_2. }
  destruct (filter _ slots); [by apply elem_of_nil in Hin|cbn; lia].
Qed.

Lemma filled_le (slots : list (option answer)) : filled slots <= length slots.
Proof. apply length_filter. Qed.

Lemma elem_of_write_indices (tr : list mevent) (idx : nat) :
  idx ∈ write_indices tr <-> exists a, MWrite idx a ∈ tr.
Proof.
  unfold write_indices. rewrite list_elem_of_omap. split.
  - intros (e & He & Heq). destruct e; try done. injection Heq as ->. eauto.
  - intros [a Ha]. by exists (MWrite idx a).
Qed.

(** The three logs after events of a given kind. *)
Lemma logs_app (tr evs : list mevent) :
  write_indices (tr ++ evs) = write_indices tr ++ write_indices evs
  /\ progress_log (tr ++ evs) = progress_log tr ++ progress_log evs
  /\ shutdowns (tr ++ evs) = shutdowns tr + shutdowns evs.
Proof.
  unfold write_indices, progress_log, shutdowns.
  by rewrite !omap_app, length_app.
Qed.

Lemma logs_submit (f : nat -> str) (l : list nat) :
  write_indices ((fun i => MSubmit i (f i)) <$> l) = []
  /\ progress_log ((fun i => MSubmit i (f i)) <$> l) = []
  /\ shutdowns ((fun i => MSubmit i (f i)) <$> l) = 0.
Proof.
  unfold write_indices, progress_log, shutdowns.
  induction l as [|i l (IH1 & IH2 & IH3)]; [done|]. cbn in *.
  by rewrite IH1, IH2, IH3.
Qed.

Lemma logs_block (idx : nat) (r : res str) (a : answer)
    (slots : list (option answer)) :
  write_indices (exception_log idx r ++ write_block questions idx a slots) = [idx]
  /\ progress_log (exception_log idx r ++ write_block questions idx a slots)
     = [(filled slots, N - filled slots)]
  /\ shutdowns (exception_log idx r ++ write_block questions idx a slots) = 0.
Proof. by destruct r. Qed.

Lemma write_in_block (idx j : nat) (r : res str) (a b : answer)
    (slots : list (option answer)) :
  MWrite j b ∈ exception_log idx r ++ write_block questions idx a slots ->
  j = idx /\ b = a.
Proof.
  intros Hin. apply elem_of_app in Hin as [Hin|Hin].
  - destruct r; cbn in Hin; [by apply elem_of_nil in Hin|].
    by apply list_elem_of_singleton in Hin.
  - unfold write_block in Hin. rewrite !elem_of_cons in Hin.
    destruct Hin as [[= -> ->]|[?|[?|[?|[?|[?|Hin]]]]]]; try done.
    by apply elem_of_nil in Hin.
Qed.

Lemma inv_more_init : inv_more (init questions file0).
Proof.
  split; cbn [trace answers file batch_start init].
  - by rewrite filled_replicate.
  - constructor.
  - intros idx a Hin. by apply elem_of_nil in Hin.
  - by rewrite filled_replicate.
  - pose proof BATCH_SIZE_pos. split; [done|lia].
Qed.

Lemma inv_more_step (s s' : sched) (a : action) :
  inv world questions file0 s -> inv_more s ->
  step world questions s a s' -> inv_more s'.
Proof.
  intros Hinv [Hpr Hnd Hwr Hfi [Hsh Hbd]] Hstep.
  destruct Hstep as [Hpc Hlt|idx t Hpc Hf Hr|idx t Hpc Hf|idx r Hpc Hf|Hpc Hc|Hpc Hge].
  - (* submit *)
    rewrite submit_batch_eq by done.
    destruct (logs_app (trace s)
                ((fun i => MSubmit i (text_of questions i))
                   <$> seq (batch_start s)
                         (batch_end_of questions s - batch_start s)))
      as (Hw & Hp & Hs).
    destruct (logs_submit (text_of questions)
                (seq (batch_start s) (batch_end_of questions s - batch_start s)))
      as (Hw' & Hp' & Hs').
    split; cbn [trace answers file batch_start].
    + by rewrite Hp, Hp', app_nil_r.
    + by rewrite Hw, Hw', app_nil_r.
    + intros j b Hin. apply elem_of_app in Hin as [Hin|Hin]; [by apply Hwr|].
      apply list_elem_of_fmap in Hin as (i & ? & _). done.
    + done.
    + rewrite Hs, Hs'. lia.
  - (* start *)
    destruct (logs_app (trace s) [MStart idx]) as (Hw & Hp & Hs).
    split; cbn [trace answers file batch_start emit set_future].
    + by rewrite Hp, app_nil_r.
    + by rewrite Hw, app_nil_r.
    + intros j b Hin. apply elem_of_app in Hin as [Hin|Hin]; [by apply Hwr|].
      by apply list_elem_of_singleton in Hin.
    + done.
    + rewrite Hs. cbn. lia.
  - (* finish *)
    destruct (logs_app (trace s) [MFinish idx]) as (Hw & Hp & Hs).
    split; cbn [trace answers file batch_start emit set_future].
    + by rewrite Hp, app_nil_r.
    + by rewrite Hw, app_nil_r.
    + intros j b Hin. apply elem_of_app in Hin as [Hin|Hin]; [by apply Hwr|].
      by apply list_elem_of_singleton in Hin.
    + done.
    + rewrite Hs. cbn. lia.
  - (* collect *)
    destruct (inv_pool _ _ _ _ Hinv Hpc) as (_ & Hslots & Hdom & _).
    assert (Hin : batch_start s <= idx < batch_end_of questions s)
      by (apply Hdom; by rewrite Hf).
    specialize (Hslots idx Hin). rewrite Hf in Hslots.
    destruct Hslots as [Hrun Hpend].
    assert (HidxN : idx < N) by (unfold batch_end_of in Hin; lia).
    rewrite on_completed_eq.
    cbn [answers set_future trace future_to_idx at_pc batch_start file].
    set (slots' := <[idx := Some (answer_of r)]> (answers s)).
    destruct (logs_app (trace s)
                (exception_log idx r
                 ++ write_block questions idx (answer_of r) slots'))
      as (Hw & Hp & Hs).
    destruct (logs_block idx r (answer_of r) slots') as (Hw' & Hp' & Hs').
    assert (Hfill : filled slots' = S (filled (answers s)))
      by by apply filled_insert.
    split; cbn [trace answers file batch_start].
    + rewrite Hp, Hp', Hpr, Hfill, seq_S, fmap_app. done.
    + rewrite Hw, Hw'. apply NoDup_app. split; [done|]. split; [|apply NoDup_singleton].
      intros j Hj Hj'. apply list_elem_of_singleton in Hj'. subst j.
      apply elem_of_write_indices in Hj as [b Hb].
      destruct (Hwr idx b Hb) as (_ & _ & Hb'). congruence.
    + intros j b Hjb. apply elem_of_app in Hjb as [Hjb|Hjb].
      * destruct (Hwr j b Hjb) as (? & ? & Hb'). split; [done|]. split; [done|].
        unfold slots'. rewrite list_lookup_insert_ne; [done|]. congruence.
      * apply write_in_block in Hjb as [-> ->]. split; [done|]. split.
        -- unfold expected. by rewrite Hrun.
        -- unfold slots'. apply list_lookup_insert_eq.
           by rewrite (inv_len _ _ _ _ Hinv).
    + rewrite Hfill. done.
    + rewrite Hs, Hs'. lia.
  - (* shutdown *)
    destruct (inv_pool _ _ _ _ Hinv Hpc) as (Hlt & _).
    destruct (logs_app (trace s) [MShutdown]) as (Hw & Hp & Hs).
    split; cbn [trace answers file batch_start next_batch].
    + by rewrite Hp, app_nil_r.
    + by rewrite Hw, app_nil_r.
    + intros j b Hin. apply elem_of_app in Hin as [Hin|Hin]; [by apply Hwr|].
      by apply list_elem_of_singleton in Hin.
    + done.
    + rewrite Hs. cbn. lia.
  - (* return *)
    by split.
Qed.

Lemma inv_more_reachable (acts : list action) (s : sched) :
  run world questions acts (init questions file0) = Some s -> inv_more s.
Proof.
  assert (Hgen : forall s0, inv world questions file0 s0 -> inv_more s0 ->
            run world questions acts s0 = Some s -> inv_more s).
  { induction acts as [|a acts' IH]; intros s0 Hinv Hmore; simpl.
    - by intros [= <-].
    - destruct (exec world questions a s0) as [s1|] eqn:E; [|done].
      apply exec_step in E.
      apply IH; [by eapply inv_step|by eapply inv_more_step]. }
  apply Hgen; [apply inv_init|apply inv_more_init].
Qed.

End CountFacts.

(** X10: with no question at all nothing is submitted, nothing is written
    and the snapshot file is left as it was; the only step there is
    returns the empty list. *)
Theorem empty_batch_touches_nothing
    (world : nat -> service) (file0 : list (list answer))
    (acts : list action) (s : sched) :
  run world [] acts (init [] file0) = Some s ->
  (acts = [] \/ acts = [AReturn])
  /\ trace s = [] /\ file s = file0 /\ answers s = []
  /\ forall final, at_pc s = Returned final -> final = [].
Proof.
  destruct acts as [|a acts]; simpl.
  - intros [= <-]. repeat split; eauto. done.
  - destruct a; try done. cbn.
    destruct acts as [|a' acts]; simpl.
    + intros [= <-]. repeat split; eauto. by intros final [= <-].
    + by destruct a'.
Qed.

Lemma empty_batch_touches_nothing_witness :
  exists s, run demo_world [] [AReturn] (init [] [[]]) = Some s
            /\ file s = [[]] /\ at_pc s = Returned [].
Proof.
  eexists. split; [reflexivity|].
  destruct (empty_batch_touches_nothing demo_world [[]] [AReturn] _ eq_refl)
    as (_ & _ & Hf & _).
  split; [exact Hf|reflexivity].
Defined.

(** X11: the progress counts reported in a run are 1, 2, 3, ... completed
    with [N - 1], [N - 2], ... remaining, one pair per slot filled so far:
    the count never skips, repeats or exceeds the number of questions. *)
Theorem progress_counts_up
    (world : nat -> service) (questions : list question)
    (file0 : list (list answer)) (acts : list action) (s : sched) :
  run world questions acts (init questions file0) = Some s ->
  progress_log (trace s)
    = (fun k => (k, length questions - k)) <$> seq 1 (filled (answers s))
  /\ filled (answers s) <= length questions.
Proof.
  intros Hrun. split.
  - apply (im_progress _ _ _ _ (inv_more_reachable world questions file0 acts s Hrun)).
  - assert (Hinv : inv world questions file0 s)
      by (apply inv_reachable; by exists acts).
    pose proof (inv_len _ _ _ _ Hinv) as Hlen. unfold total in Hlen.
    rewrite <- Hlen. apply filled_le.
Qed.

Lemma progress_counts_up_witness :
  exists s,
    run demo_world demo_questions demo_schedule (init demo_questions []) = Some s
    /\ progress_log (trace s) = [(1, 2); (2, 1); (3, 0)].
Proof.
  eexists. split; [vm_compute; reflexivity|].
  exact (proj1 (progress_counts_up demo_world demo_questions [] demo_schedule _
                  ltac:(vm_compute; reflexivity))).
Defined.



(** X13: until the first slot is filled the snapshot file is as it was
    before the call; from then on it holds exactly the rendering of the
    answers in memory; so when a batch of at least one question returns,
    the file holds the returned list and nothing else. *)
Theorem snapshot_matches_memory
    (world : nat -> service) (questions : list question)
    (file0 : list (list answer)) (acts : list action) (s : sched) :
  run world questions acts (init questions file0) = Some s ->
  file s = (if decide (filled (answers s) = 0) then file0
            else [render (answers s)])
  /\ forall final, at_pc s = Returned final -> 0 < length questions ->
       file s = [final].
Proof.
  intros Hrun.
  pose proof (inv_more_reachable world questions file0 acts s Hrun) as Hm.
  assert (Hinv : inv world questions file0 s)
    by (apply inv_reachable; by exists acts).
  pose proof (im_file _ _ _ _ Hm) as Hfile.
  split; [done|]. intros final Hpc Hpos.
  destruct (inv_ret _ _ _ _ Hinv final Hpc) as [Hge ->].
  assert (H0 : answers s !! 0 = Some (Some (expected world questions 0)))
    by (apply (inv_done _ _ _ _ Hinv); unfold total in *; lia).
  apply filled_pos in H0. rewrite Hfile. case_decide; [lia|done].
Qed.

Lemma snapshot_matches_memory_witness :
  exists s final,
    run demo_world demo_questions demo_schedule (init demo_questions [[]]) = Some s
    /\ at_pc s = Returned final
    /\ file s = [final].
Proof.
  eexists _, _. split; [vm_compute; reflexivity|]. split; [reflexivity|].
  apply (proj2 (snapshot_matches_memory demo_world demo_questions [[]]
                  demo_schedule _ ltac:(vm_compute; reflexivity)));
    [reflexivity | vm_compute; lia].
Defined.

(** X14: a batch cannot hang and cannot run on: in every state a run can
    reach, either the call has returned or some step is enabled, and no
    run has more than [5 * N + 1] steps. *)
Theorem no_run_hangs
    (world : nat -> service) (questions : list question)
    (file0 : list (list answer)) (acts : list action) (s : sched) :
  run world questions acts (init questions file0) = Some s ->
  length acts <= 5 * length questions + 1
  /\ ((exists final, at_pc s = Returned final)
      \/ exists a s', exec world questions a s = Some s').
Proof.
  intros Hrun. split.
  - pose proof (steps_left_run world questions acts _ _ Hrun) as Hb.
    unfold steps_left in Hb at 2. cbn in Hb. unfold total in Hb. lia.
  - destruct (progress world questions file0 s) as [Hret|(a & s' & Hstep)].
    + apply inv_reachable. by exists acts.
    + by left.
    + right. exists a, s'. by apply exec_step.
Qed.

Lemma no_run_hangs_witness :
  length demo_schedule <= 5 * length demo_questions + 1.
Proof.
  exact (proj1 (no_run_hangs demo_world demo_questions [] demo_schedule _
                  ltac:(vm_compute; reflexivity))).
Defined.

(** X15: the pool is opened and shut down once per chunk: when the call
    returns, the number of shutdowns is the number of questions divided by
    [BATCH_SIZE], rounded up. *)
Theorem one_pool_per_chunk
    (world : nat -> service) (questions : list question)
    (file0 : list (list answer)) (acts : list action) (s : sched)
    (final : list answer) :
  run world questions acts (init questions file0) = Some s ->
  at_pc s = Returned final ->
  shutdowns (trace s) = (length questions + BATCH_SIZE - 1) / BATCH_SIZE.
Proof.
  intros Hrun Hpc.
  pose proof (inv_more_reachable world questions file0 acts s Hrun) as Hm.
  assert (Hinv : inv world questions file0 s)
    by (apply inv_reachable; by exists acts).
  destruct (im_pools _ _ _ _ Hm) as [Hsh Hbd].
  destruct (inv_ret _ _ _ _ Hinv final Hpc) as [Hge _].
  pose proof BATCH_SIZE_pos. unfold total in *.
  apply (Nat.div_unique _ _ _
           (length questions + BATCH_SIZE - 1 - batch_start s)); lia.
Qed.

Lemma one_pool_per_chunk_witness :
  exists s final,
    run twelve_world twelve_questions
      (parallel_batch 0 10 ++ parallel_batch 10 2 ++ [AReturn])
      (init twelve_questions []) = Some s
    /\ at_pc s = Returned final
    /\ shutdowns (trace s) = 2.
Proof.
  eexists _, _. split; [vm_compute; reflexivity|]. split; [reflexivity|].
  exact (one_pool_per_chunk twelve_world twelve_questions []
           (parallel_batch 0 10 ++ parallel_batch 10 2 ++ [AReturn]) _ _
           ltac:(vm_compute; reflexivity) eq_refl).
Defined.

(** ** Extraction and the batch together *)

Section AnswerFacts.

Lemma rfind_app_shift (sub pre s : str) (i : nat) :
  rfind sub s = Some i -> rfind sub (pre ++ s) = Some (length pre + i).
Proof.
  intros Hi. induction pre as [|c pre IH]; [done|].
  cbn [app rfind length]. by rewrite IH.
Qed.

Lemma strip_sublist (s : str) : strip s `sublist_of` s.
Proof.
  unfold strip. etransitivity; [apply drop_while_sublist|apply rstrip_by_sublist].
Qed.

Lemma drop_while_all (p : char -> bool) (s : str) :
  Forall (fun c => p c = true) s -> drop_while p s = [].
Proof. induction 1 as [|c s Hc _ IH]; [done|]. cbn. by rewrite Hc. Qed.

Lemma strip_all_space (s : str) :
  Forall (fun c => isspace c = true) s -> strip s = [].
Proof.
  intros Hs. unfold strip, rstrip_by, lstrip_by.
  rewrite (drop_while_all isspace (rev s)); [done|].
  apply Forall_forall. intros c Hc. rewrite Forall_forall in Hs.
  apply Hs. apply list_elem_of_In. apply list_elem_of_In in Hc.
  by apply in_rev.
Qed.

(** Only a text can give an answer. *)
Lemma extract_answer_some_text (v : json) (a : str) :
  extract_answer v = Ok (Some a) -> exists s, v = JStr s.
Proof.
  unfold extract_answer.
  destruct v as [|b|z|s|items|fields]; cbn [truthy negb py_in py_split mbind res_bind];
    try done.
  - by destruct b.
  - by destruct (negb (z =? 0)%Z).
  - eauto.
  - destruct items; [done|]. cbn [negb].
    by destruct (existsb (is_str MARKER) _).
  - destruct fields; [done|]. cbn [negb]. by case_bool_decide.
Qed.

Lemma extract_answer_no_space (s a : str) :
  extract_answer (JStr s) = Ok (Some a) -> a ≠ [] /\ (32%N ∉ a).
Proof.
  rewrite extract_answer_str. destruct (rfind MARKER s) as [i|]; [|done].
  intros [= Hc]. destruct (cleanup_shape _ _ Hc) as (? & ? & _). done.
Qed.

Lemma run_agent_loop_no_space (post : service) (q : str) (m : Z)
    (attempts : list Z) (st st' : tstate) (v : str) :
  run_agent_loop post q m attempts st = (Ok v, st') -> 32%N ∉ v.
Proof.
  revert st. induction attempts as [|a rest IH]; intros st.
  - intros [= <- _]. apply not_elem_of_nil.
  - rewrite run_agent_loop_cons.
    destruct (attempt_yield post q (calls st)) as [answer|e] eqn:Hy; [|done].
    destruct (opt_truthy answer) eqn:Ht; [|apply IH].
    intros [= <- _]. destruct answer as [ans|]; [|done]. cbn.
    unfold attempt_yield in Hy.
    destruct (extract_answer_some_text _ _ Hy) as [s Hs]. rewrite Hs in Hy.
    destruct (extract_answer_no_space s ans Hy) as [_ Hsp].
    intros Hin. apply Hsp. eapply elem_of_sublist; [exact Hin|apply strip_sublist].
Qed.

End AnswerFacts.

(** X16: nothing in front of an occurrence of the marker matters to
    [extract_answer]: the text from that occurrence on gives the same
    result. *)
Theorem extract_answer_ignores_prefix (before rest : str) :
  extract_answer (JStr (before ++ MARKER ++ rest))
  = extract_answer (JStr (MARKER ++ rest)).
Proof.
  rewrite !extract_answer_str.
  destruct (rfind_self_app MARKER rest) as [i Hi].
  rewrite (rfind_app_shift MARKER before _ i Hi), Hi.
  rewrite <- !Nat.add_assoc.
  by rewrite <- (drop_drop _ (i + length MARKER) (length before)), drop_app_length.
Qed.

(** X17: an answer made of whitespace only ends the retries at once with
    the empty string: [run_agent] strips it and returns, with its other
    attempts unused. *)
Theorem run_agent_returns_empty_on_blank_answer
    (post : service) (q : str) (max_retries : Z) (c : char) (a : str) :
  (0 < max_retries)%Z ->
  attempt_yield post q 0 = Ok (Some (c :: a)) ->
  Forall (fun x => isspace x = true) (c :: a) ->
  run_agent post q max_retries tstate0 = (Ok [], after_post q tstate0).
Proof.
  intros Hm Hy Hsp. unfold run_agent.
  rewrite (py_range_split max_retries 0) by lia. cbn [seq map app].
  rewrite run_agent_loop_cons. cbn [calls tstate0]. rewrite Hy.
  cbn [opt_truthy default from_option id]. by rewrite strip_all_space.
Qed.

Lemma run_agent_returns_empty_on_blank_answer_witness :
  run_agent (fun _ _ => reply (JStr (lit "FINAL ANSWER: +" ++ [9%N] ++ lit ".")))
    (lit "2+2?") 3 tstate0
  = (Ok [], after_post (lit "2+2?") tstate0).
Proof.
  apply (run_agent_returns_empty_on_blank_answer _ _ 3 9%N []);
    [lia | reflexivity | by repeat constructor].
Defined.

(** X18: every output of a returned batch is free of spaces and has no
    whitespace at either end: it went through the cleanup of
    [extract_answer] and the [strip] of [run_agent], or it is empty. *)
Theorem outputs_are_clean
    (world : nat -> service) (questions : list question)
    (file0 : list (list answer)) (acts : list action) (s : sched)
    (final : list answer) (i : nat) (a : answer) :
  run world questions acts (init questions file0) = Some s ->
  at_pc s = Returned final ->
  final !! i = Some a ->
  (32%N ∉ output a) /\ strip (output a) = output a.
Proof.
  intros Hrun Hpc Hi.
  assert (Hinv : inv world questions file0 s)
    by (apply inv_reachable; by exists acts).
  destruct (returned_answers world questions file0 s final Hinv Hpc) as [Hlen Hat].
  destruct (lookup_lt_is_Some_2 questions i) as [q Hq];
    [rewrite <- Hlen; by eapply lookup_lt_Some|].
  rewrite (Hat i q Hq) in Hi. injection Hi as <-.
  unfold run_task, run_agent.
  destruct (run_agent_loop (world i) (get_input q) DEFAULT_MAX_RETRIES
              (py_range DEFAULT_MAX_RETRIES) tstate0) as [[v|e] st'] eqn:E;
    cbn [fst answer_of output].
  - pose proof (run_agent_loop_no_space _ _ _ _ _ _ _ E) as Hns.
    split; [|apply strip_idem].
    intros Hin. apply Hns. eapply elem_of_sublist; [exact Hin|apply strip_sublist].
  - split; [apply not_elem_of_nil|done].
Qed.

Lemma outputs_are_clean_witness :
  exists s final,
    run demo_world demo_questions demo_schedule (init demo_questions []) = Some s
    /\ at_pc s = Returned final
    /\ final !! 0 = Some {| output := lit "42" |}
    /\ (32%N ∉ lit "42") /\ strip (lit "42") = lit "42".
Proof.
  eexists _, _. split; [vm_compute; reflexivity|]. split; [reflexivity|].
  split; [reflexivity|].
  exact (outputs_are_clean demo_world demo_questions [] demo_schedule _ _ 0
           {| output := lit "42" |} ltac:(vm_compute; reflexivity)
           eq_refl eq_refl).
Defined.
